(** * datacache: a keyed, multi-alias record store

    Shallow embedding of [github.com/sameeroak1110/datacache]
    ([types.go], [datacache.go]) and the properties of its data model.

    Modelling conventions.
    - A Go [map[Key]*Rec] is a [gmap Key loc]; the [*Rec] pointers are
      locations into an arena of [Rec] objects ([recs]), so that several keys
      share one record and a write through one alias is seen through all.
    - [Key] is [interface{}]; we keep the two dynamic types that matter for
      the code under study: Go [int] (the type of a [range] index) and
      [string].
    - Key slices are values: a record owns the slice it was created with.
      Callers do not write the exported fields of a record they hold, and a
      handler only reads what it is given.
    - A method is embedded for a receiver that exists.  The guard
      [pDataCache == nil] that opens every method returns the failure value
      and touches nothing; the guard on a nil payload is kept.
    - Go [int] is 64 bit; counter arithmetic wraps ([int_add], [int_sub]).
    - The store-wide [sync.RWMutex] serialises whole operations.  Each
      operation is embedded as the body that runs while that lock is held, so
      a locking method and its [WOLock] twin have the same body.  The
      per-record [sync.Mutex] outlives a call ([GetRec] hands out a locked
      record) and is part of the state; acquiring a held record mutex never
      returns in a sequential run and is the outcome [Block]; a run-time
      panic is the outcome [Panic].
    - Go ranges over a map in an unspecified order; a traversal is embedded
      over [map_to_list], and what is proved of it does not depend on the
      order. *)

From stdpp Require Import gmap strings list fin_maps.
From Stdlib Require Import ZArith Lia.

Open Scope Z_scope.

(** ** Keys *)

Inductive Key : Type :=
  | KInt (n : Z)
  | KString (s : string).

#[global] Instance Key_eq_dec : EqDecision Key.
Proof. solve_decision. Defined.

Definition Key_to_sum (k : Key) : Z + string :=
  match k with KInt n => inl n | KString s => inr s end.

Definition Key_of_sum (x : Z + string) : Key :=
  match x with inl n => KInt n | inr s => KString s end.

#[global] Instance Key_countable : Countable Key.
Proof.
  refine (inj_countable' Key_to_sum Key_of_sum _).
  intros []; reflexivity.
Defined.

(** ** Go [int] *)

Definition int_wrap (z : Z) : Z := (z + 2 ^ 63) mod 2 ^ 64 - 2 ^ 63.
Definition int_add (a b : Z) : Z := int_wrap (a + b).
Definition int_sub (a b : Z) : Z := int_wrap (a - b).

(** ** Outcomes of a sequential run *)

Inductive res (A : Type) : Type :=
  | Ok (a : A)
  | Block
  | Panic.
Arguments Ok {A} a.
Arguments Block {A}.
Arguments Panic {A}.

#[global] Instance res_ret : MRet res := λ A a, Ok a.
#[global] Instance res_bind : MBind res := λ A B f m,
  match m with
  | Ok a => f a
  | Block => Block
  | Panic => Panic
  end.

(** ** [sync.Mutex] (go1.14: [state int32], bit 0 is [mutexLocked]) *)

Record Mutex : Type := mkMutex { state : Z }.

Definition mutexLocked : Z := 1.

Definition isLocked (m : Mutex) : bool :=
  Z.land (state m) mutexLocked =? mutexLocked.

(** [Lock] returns once the mutex is free; on a held mutex the caller parks. *)
Definition Mutex_Lock (m : Mutex) : res Mutex :=
  if isLocked m then Block else Ok (mkMutex (Z.lor (state m) mutexLocked)).

(** [Unlock] of a mutex that is not held is a fatal run-time error. *)
Definition Mutex_Unlock (m : Mutex) : res Mutex :=
  if isLocked m then Ok (mkMutex (state m - mutexLocked)) else Panic.

(** ** types.go *)

(** [interface{}] holding the caller's payload pointer; [None] is [nil]. *)
Definition iface : Type := option Z.

Record Payload : Type := mkPayload {
  Payload_KeyList : list Key;
  Payload_PDataRec : iface
}.

Record Rec : Type := mkRec {
  KeyList : list Key;
  PDataRec : iface;
  isActive : bool;
  refcnt : Z;
  pRecLock : option Mutex;
  pUnlockRecLock : option Mutex
}.

(** A [*Rec]: an index into the arena of records. *)
Abbreviation loc := nat (only parsing).

Definition LoadFunc : Type := unit → bool * list Payload.
Definition RecHandlerFunc : Type := iface → bool.

Record DataCache : Type := mkDataCache {
  recs : list Rec;
  cache : gmap Key loc;
  loadfn : option LoadFunc;
  reciteratefn : option RecHandlerFunc;
  cnt : Z;
  singletonFlag : bool
}.

Definition set_recs (h : list Rec) (d : DataCache) : DataCache :=
  mkDataCache h (cache d) (loadfn d) (reciteratefn d) (cnt d) (singletonFlag d).
Definition set_cache (c : gmap Key loc) (d : DataCache) : DataCache :=
  mkDataCache (recs d) c (loadfn d) (reciteratefn d) (cnt d) (singletonFlag d).
Definition set_cnt (n : Z) (d : DataCache) : DataCache :=
  mkDataCache (recs d) (cache d) (loadfn d) (reciteratefn d) n (singletonFlag d).
Definition set_singletonFlag (b : bool) (d : DataCache) : DataCache :=
  mkDataCache (recs d) (cache d) (loadfn d) (reciteratefn d) (cnt d) b.

Definition set_KeyList (ks : list Key) (r : Rec) : Rec :=
  mkRec ks (PDataRec r) (isActive r) (refcnt r) (pRecLock r) (pUnlockRecLock r).
Definition set_isActive (b : bool) (r : Rec) : Rec :=
  mkRec (KeyList r) (PDataRec r) b (refcnt r) (pRecLock r) (pUnlockRecLock r).
Definition set_pRecLock (m : option Mutex) (r : Rec) : Rec :=
  mkRec (KeyList r) (PDataRec r) (isActive r) (refcnt r) m (pUnlockRecLock r).

(** ** Errors ([errors.New] values of datacache.go) *)

Inductive error : Type :=
  | ErrNullCacheOrPayload          (* "NULL datacache or payload." *)
  | ErrKeyExists (k : Key)         (* "Key \"%s\" exists." *)
  | ErrMissingKey (k : Key)        (* "Missing key ..." *)
  | ErrKeyDoesntExist              (* "Key doesn't exist." *)
  | ErrAlreadyLoaded               (* "Already executed load-time sequence." *)
  | ErrAlreadyIterated             (* "Already executed load-time iteration sequence." *)
  | ErrAlreadyLoadedAll            (* "Already executed all load-time sequences." *)
  | ErrNilLoader                   (* "Nil datacache loader." *)
  | ErrLoadFailed                  (* "Load function failed." *)
  | ErrNilIterator                 (* "Nil datacache iterator." *)
  | ErrNilHandler.                 (* "Nil or no cache record handler provided." *)

(** ** Record locks *)

(** [pRec.pRecLock.Lock()] through a [*Rec]. *)
Definition lockAt (l : loc) (h : list Rec) : res (list Rec) :=
  match h !! l with
  | None => Panic
  | Some r =>
      match pRecLock r with
      | None => Panic
      | Some m => m' ← Mutex_Lock m; Ok (<[l := set_pRecLock (Some m') r]> h)
      end
  end.

(** [pRec.pRecLock.Unlock()] through a [*Rec]. *)
Definition unlockAt (l : loc) (h : list Rec) : res (list Rec) :=
  match h !! l with
  | None => Panic
  | Some r =>
      match pRecLock r with
      | None => Panic
      | Some m => m' ← Mutex_Unlock m; Ok (<[l := set_pRecLock (Some m') r]> h)
      end
  end.

(** [func (pRec *Rec) RecLock()]: nil record and nil lock are skipped. *)
Definition RecLock (pRec : option Rec) : res (option Rec) :=
  match pRec with
  | None => Ok None
  | Some r =>
      match pRecLock r with
      | None => Ok (Some r)
      | Some m => m' ← Mutex_Lock m; Ok (Some (set_pRecLock (Some m') r))
      end
  end.

(** [func (pRec *Rec) RecUnlock()].  The result is the record the pointer
    refers to afterwards, with the lines written to standard output.  The
    final [pRec = nil] only clears the method's own copy of the pointer. *)
Definition RecUnlock (pRec : option Rec) : res (option Rec * list string) :=
  match pRec with
  | None => Ok (None, [])
  | Some r =>
      let out := ["Attempting to unlock record."%string] in
      match pRecLock r with
      | None => Ok (Some r, out)
      | Some m =>
          if isLocked m then
            m' ← Mutex_Unlock m;
            Ok (Some (set_pRecLock (Some m') r),
                out ++ ["Record has been unlocked."%string])
          else Ok (Some r, out ++ ["Record is already in unlocked state."%string])
      end
  end.

(** ** datacache.go: adding records *)

(** The existence check of [AddRec]: the first supplied key that is mapped. *)
Fixpoint firstExisting (c : gmap Key loc) (keyList : list Key) : option Key :=
  match keyList with
  | [] => None
  | k :: ks =>
      match c !! k with
      | Some _ => Some k
      | None => firstExisting c ks
      end
  end.

(** [&Rec{PDataRec: pRec, KeyList: keyList, isActive: true}] with a fresh
    [&sync.Mutex{}]. *)
Definition newRec (keyList : list Key) (pRec : iface) : Rec :=
  mkRec keyList pRec true 0 (Some (mkMutex 0)) None.

(** [for i, _ := range keyList { cache[keyList[i]] = pDataCacheRec }] *)
Fixpoint mapKeys (c : gmap Key loc) (keyList : list Key) (l : loc) : gmap Key loc :=
  match keyList with
  | [] => c
  | k :: ks => mapKeys (<[k := l]> c) ks l
  end.

(** The tail shared by every add: allocate the record, map each key to it,
    bump the counter. *)
Definition insertRec (keyList : list Key) (pRec : iface) (d : DataCache) : DataCache :=
  let l := length (recs d) in
  mkDataCache (recs d ++ [newRec keyList pRec])
              (mapKeys (cache d) keyList l)
              (loadfn d) (reciteratefn d)
              (int_add (cnt d) 1)
              (singletonFlag d).

Definition AddRec (keyList : list Key) (pRec : iface) (recExistsErrFlag : bool)
    (d : DataCache) : (Z * option error) * DataCache :=
  match pRec with
  | None => ((-1, Some ErrNullCacheOrPayload), d)
  | Some _ =>
      match (if recExistsErrFlag then firstExisting (cache d) keyList else None) with
      | Some k => ((-1, Some (ErrKeyExists k)), d)
      | None => let d' := insertRec keyList pRec d in ((cnt d', None), d')
      end
  end.

Definition AddRecWOLock := AddRec.

(** The displacement loop of the force adds:
    [if _, isOK := cache[keyList[i]]; isOK { delete(cache, i) }]
    where [i] is the loop index, boxed as a Go [int] key. *)
Fixpoint displace (c : gmap Key loc) (i : Z) (keyList : list Key) : gmap Key loc :=
  match keyList with
  | [] => c
  | k :: ks =>
      displace (match c !! k with
                | Some _ => delete (KInt i) c
                | None => c
                end) (i + 1) ks
  end.

Definition ForceAddRec (keyList : list Key) (pRec : iface) (d : DataCache)
    : (Z * option error) * DataCache :=
  match pRec with
  | None => ((-1, Some ErrNullCacheOrPayload), d)
  | Some _ =>
      let d1 := set_cache (displace (cache d) 0 keyList) d in
      let d' := insertRec keyList pRec d1 in
      ((cnt d', None), d')
  end.

Definition ForceAddRecWOLock := ForceAddRec.

(** [prec, _ := cache[k]; prec.pRecLock.Lock()]: a missing key yields a nil
    [prec], whose dereference panics. *)
Definition lockRecOf (k : Key) (d : DataCache) : res (loc * DataCache) :=
  match cache d !! k with
  | None => Panic
  | Some l => h ← lockAt l (recs d); Ok (l, set_recs h d)
  end.

(** [keyList[0]] panics on an empty slice, after the record was inserted. *)
Definition lockFirst (keyList : list Key) (d : DataCache) : res (loc * DataCache) :=
  match keyList with
  | [] => Panic
  | k :: _ => lockRecOf k d
  end.

Definition AddAndGetRec (keyList : list Key) (pRec : iface) (recExistsErrFlag : bool)
    (d : DataCache) : res ((Z * option loc * option error) * DataCache) :=
  match pRec with
  | None => Ok ((-1, None, Some ErrNullCacheOrPayload), d)
  | Some _ =>
      match (if recExistsErrFlag then firstExisting (cache d) keyList else None) with
      | Some k => Ok ((-1, None, Some (ErrKeyExists k)), d)
      | None =>
          '(l, d') ← lockFirst keyList (insertRec keyList pRec d);
          Ok ((cnt d', Some l, None), d')
      end
  end.

Definition AddAndGetRecWOLock := AddAndGetRec.

Definition ForceAddAndGetRec (keyList : list Key) (pRec : iface) (d : DataCache)
    : res ((Z * option loc * option error) * DataCache) :=
  match pRec with
  | None => Ok ((-1, None, Some ErrNullCacheOrPayload), d)
  | Some _ =>
      let d1 := set_cache (displace (cache d) 0 keyList) d in
      '(l, d') ← lockFirst keyList (insertRec keyList pRec d1);
      Ok ((cnt d', Some l, None), d')
  end.

Definition ForceAddAndGetRecWOLock := ForceAddAndGetRec.

(** ** Aliasing an existing record *)

(** [pRec.KeyList = append(pRec.KeyList, newKey); cache[newKey] = pRec] *)
Definition alias (l : loc) (newKey : Key) (d : DataCache) : DataCache :=
  set_cache (<[newKey := l]> (cache d))
    (set_recs (alter (λ r, set_KeyList (KeyList r ++ [newKey]) r) l (recs d)) d).

Definition ReAddRec (originalKey newKey : Key) (d : DataCache)
    : (Z * option error) * DataCache :=
  match cache d !! originalKey with
  | Some l => let d' := alias l newKey d in ((cnt d', None), d')
  | None => ((-1, Some (ErrMissingKey originalKey)), d)
  end.


Definition ReAddAndGetRec (originalKey newKey : Key) (d : DataCache)
    : res ((Z * option loc * option error) * DataCache) :=
  match cache d !! originalKey with
  | Some l =>
      '(l', d') ← lockRecOf newKey (alias l newKey d);
      Ok ((cnt d', Some l', None), d')
  | None => Ok ((-1, None, Some (ErrMissingKey originalKey)), d)
  end.

Definition ReAddAndGetRecWOLock := ReAddAndGetRec.

(** ** Deleting *)

Definition DeleteKey (key : Key) (d : DataCache) : option error * DataCache :=
  (None, set_cache (delete key (cache d)) d).

(** [for _, key := range keylist { delete(cache, key) }] *)
Fixpoint deleteKeys (c : gmap Key loc) (keylist : list Key) : gmap Key loc :=
  match keylist with
  | [] => c
  | k :: ks => deleteKeys (delete k c) ks
  end.

(** [pRec.KeyList] read through the pointer. *)
Definition keyListAt (l : loc) (h : list Rec) : res (list Key) :=
  match h !! l with
  | None => Panic
  | Some r => Ok (KeyList r)
  end.

Definition DeleteRec (key : Key) (d : DataCache) : res ((Z * option error) * DataCache) :=
  match cache d !! key with
  | None => Ok ((-1, Some ErrKeyDoesntExist), d)
  | Some l =>
      h1 ← lockAt l (recs d);
      h2 ← unlockAt l h1;
      keylist ← keyListAt l h2;
      let n := int_sub (cnt d) 1 in
      Ok ((n, None),
          mkDataCache h2 (deleteKeys (cache d) keylist)
                      (loadfn d) (reciteratefn d) n (singletonFlag d))
  end.

(** The caller-holds-lock twin reports an absent key as [(true, 0)] and
    releases the record lock after the unlink. *)
Definition DeleteRecWOLock (key : Key) (d : DataCache) : res ((bool * Z) * DataCache) :=
  match cache d !! key with
  | None => Ok ((true, 0), d)
  | Some l =>
      h1 ← lockAt l (recs d);
      keylist ← keyListAt l h1;
      h2 ← unlockAt l h1;
      let n := int_sub (cnt d) 1 in
      Ok ((true, n),
          mkDataCache h2 (deleteKeys (cache d) keylist)
                      (loadfn d) (reciteratefn d) n (singletonFlag d))
  end.

(** The guarded lock and unlock of [DeleteCache]:
    [if pTmpRecLock != nil { pTmpRecLock.Lock() }]. *)
Definition lockIfAny (l : loc) (h : list Rec) : res (list Rec) :=
  match h !! l with
  | None => Panic
  | Some r =>
      match pRecLock r with
      | None => Ok h
      | Some _ => lockAt l h
      end
  end.

Definition unlockIfAny (l : loc) (h : list Rec) : res (list Rec) :=
  match h !! l with
  | None => Panic
  | Some r =>
      match pRecLock r with
      | None => Ok h
      | Some _ => unlockAt l h
      end
  end.

(** [for key, prec := range cache { lock; delete(cache, key); unlock }].
    Only the entry being visited is removed, so the loop visits every entry
    present at its start; [entries] is that list, in the order taken. *)
Fixpoint clearEntries (entries : list (Key * loc)) (d : DataCache) : res DataCache :=
  match entries with
  | [] => Ok d
  | (key, l) :: rest =>
      h1 ← lockIfAny l (recs d);
      let c := delete key (cache d) in
      h2 ← unlockIfAny l h1;
      clearEntries rest (set_cache c (set_recs h2 d))
  end.

Definition DeleteCache (d : DataCache) : res (bool * DataCache) :=
  d' ← clearEntries (map_to_list (cache d)) d; Ok (true, d').

Definition DeleteCacheWOLock := DeleteCache.

(** ** Record state and lookups *)

Definition UpdateRecState (key : Key) (recState : bool) (d : DataCache)
    : res (bool * DataCache) :=
  match cache d !! key with
  | None => Ok (false, d)
  | Some l =>
      h1 ← lockAt l (recs d);
      let h2 := alter (set_isActive recState) l h1 in
      h3 ← unlockAt l h2;
      Ok (true, set_recs h3 d)
  end.

Definition UpdateRecStateWOLock := UpdateRecState.

(** Returns the record still locked. *)
Definition GetRec (key : Key) (d : DataCache) : res ((bool * option loc) * DataCache) :=
  match cache d !! key with
  | None => Ok ((false, None), d)
  | Some l => h ← lockAt l (recs d); Ok ((true, Some l), set_recs h d)
  end.

Definition GetRecWOLock := GetRec.

Definition GetDataRec (key : Key) (d : DataCache) : res ((bool * iface) * DataCache) :=
  match cache d !! key with
  | None => Ok ((false, None), d)
  | Some l =>
      h1 ← lockAt l (recs d);
      match h1 !! l with
      | None => Panic
      | Some r => h2 ← unlockAt l h1; Ok ((true, PDataRec r), set_recs h2 d)
      end
  end.

Definition GetDataRecWOLock := GetDataRec.

Definition DoesKeyExist (key : Key) (d : DataCache) : bool :=
  match cache d !! key with
  | None => false
  | Some _ => true
  end.

Definition DoesKeyExistWOLock := DoesKeyExist.

Definition GetCnt (d : DataCache) : bool * Z := (true, cnt d).

Definition SetCnt (val : Z) (d : DataCache) : (bool * Z) * DataCache :=
  ((true, val), set_cnt val d).

(** [RecLock] and [RecUnlock] through a pointer into the arena. *)
Definition RecLockAt (l : loc) (h : list Rec) : res (list Rec) :=
  match h !! l with
  | None => Panic
  | Some r =>
      o ← RecLock (Some r);
      Ok (match o with Some r' => <[l := r']> h | None => h end)
  end.

Definition RecUnlockAt (l : loc) (h : list Rec) : res (list Rec) :=
  match h !! l with
  | None => Panic
  | Some r =>
      '(o, _) ← RecUnlock (Some r);
      Ok (match o with Some r' => <[l := r']> h | None => h end)
  end.

(** ** Load-time sequence *)

(** One record per loaded pair, every alias of the pair mapped to it. *)
Fixpoint loadRecs (recList : list Payload) (h : list Rec) (c : gmap Key loc)
    : list Rec * gmap Key loc :=
  match recList with
  | [] => (h, c)
  | p :: ps =>
      loadRecs ps
        (h ++ [newRec (Payload_KeyList p) (Payload_PDataRec p)])
        (mapKeys c (Payload_KeyList p) (length h))
  end.

(** The load phase proper, once the loader has answered [true]. *)
Definition loaded (recList : list Payload) (d : DataCache) : DataCache :=
  let '(h, c) := loadRecs recList (recs d) (cache d) in
  mkDataCache h c (loadfn d) (reciteratefn d)
              (Z.of_nat (length recList)) (singletonFlag d).

(** The deferred function of [Load]: the one-shot flag is raised only when no
    iterator is registered. *)
Definition Load_deferred (d : DataCache) : DataCache :=
  match reciteratefn d with
  | None => set_singletonFlag true d
  | Some _ => d
  end.

Definition Load (isLoaderProvided : bool) (d : DataCache)
    : (bool * option error) * DataCache :=
  if singletonFlag d then ((false, Some ErrAlreadyLoaded), Load_deferred d)
  else
    match loadfn d with
    | None =>
        if isLoaderProvided then ((false, Some ErrNilLoader), Load_deferred d)
        else ((true, None), Load_deferred d)
    | Some f =>
        let '(isOK, recList) := f () in
        if isOK then ((true, None), Load_deferred (loaded recList d))
        else ((false, Some ErrLoadFailed), Load_deferred d)
    end.

(** A handler invocation: the record it was made for and the argument passed
    ([pRec.PDataRec]). *)
Definition call : Type := loc * iface.

(** [for _, pRec := range cache { reciteratefn(pRec.PDataRec) }]: one
    invocation per entry of the map.  The handler's result is discarded by
    the code; what it does to the world is the list of its invocations. *)
Fixpoint visit (entries : list (Key * loc)) (h : list Rec) : res (list call) :=
  match entries with
  | [] => Ok []
  | (_, l) :: rest =>
      match h !! l with
      | None => Panic
      | Some r => cs ← visit rest h; Ok ((l, PDataRec r) :: cs)
      end
  end.

Definition Iterate (cacheName : string) (isIteratorProvided : bool) (d : DataCache)
    : res ((bool * option error) * list call * DataCache) :=
  let d' := set_singletonFlag true d in
  if singletonFlag d then Ok ((false, Some ErrAlreadyIterated), [], d')
  else
    match reciteratefn d with
    | None =>
        if isIteratorProvided then Ok ((false, Some ErrNilIterator), [], d')
        else Ok ((true, None), [], d')
    | Some _ =>
        cs ← visit (map_to_list (cache d)) (recs d);
        Ok ((true, None), cs, d')
    end.

Definition LoadAndIterate (isLoaderProvided isIteratorProvided : bool) (d : DataCache)
    : res ((bool * option error) * list call * DataCache) :=
  let done (d0 : DataCache) := set_singletonFlag true d0 in
  if singletonFlag d then Ok ((false, Some ErrAlreadyLoadedAll), [], done d)
  else
    match loadfn d with
    | None =>
        if isLoaderProvided then Ok ((false, Some ErrNilLoader), [], done d)
        else Ok ((true, None), [], done d)
    | Some f =>
        let '(isOK, recList) := f () in
        if isOK then
          let d1 := loaded recList d in
          match reciteratefn d1 with
          | None =>
              if isIteratorProvided then Ok ((false, Some ErrNilIterator), [], done d1)
              else Ok ((true, None), [], done d1)
          | Some _ =>
              cs ← visit (map_to_list (cache d1)) (recs d1);
              Ok ((true, None), cs, done d1)
          end
        else Ok ((false, Some ErrLoadFailed), [], done d)
    end.

(** [for _, pRec := range cache { pRec.RecLock(); recHandler(pRec); pRec.RecUnlock() }].
    The handler is taken to read the record it is given. *)
Fixpoint auxVisit (entries : list (Key * loc)) (h : list Rec) : res (list call * list Rec) :=
  match entries with
  | [] => Ok ([], h)
  | (_, l) :: rest =>
      h1 ← RecLockAt l h;
      match h1 !! l with
      | None => Panic
      | Some r =>
          h2 ← RecUnlockAt l h1;
          '(cs, h3) ← auxVisit rest h2;
          Ok ((l, PDataRec r) :: cs, h3)
      end
  end.

Definition AuxIterate (cacheName : string) (recHandler : option (Rec → bool)) (d : DataCache)
    : res ((bool * option error) * list call * DataCache) :=
  match recHandler with
  | None => Ok ((false, Some ErrNilHandler), [], d)
  | Some _ =>
      '(cs, h) ← auxVisit (map_to_list (cache d)) (recs d);
      Ok ((true, None), cs, set_recs h d)
  end.

Definition Create (loadFunc : option LoadFunc) (iteratorFunc : option RecHandlerFunc)
    : DataCache :=
  mkDataCache [] ∅ loadFunc iteratorFunc 0 false.

(** ** Sequences of API calls *)

(** One call of the public API.  A [WOLock] method whose body is that of its
    locking twin is the same step. *)
Inductive Op : Type :=
  | OpAddRec (keyList : list Key) (pRec : iface) (recExistsErrFlag : bool)
  | OpForceAddRec (keyList : list Key) (pRec : iface)
  | OpAddAndGetRec (keyList : list Key) (pRec : iface) (recExistsErrFlag : bool)
  | OpForceAddAndGetRec (keyList : list Key) (pRec : iface)
  | OpReAddRec (originalKey newKey : Key)
  | OpReAddAndGetRec (originalKey newKey : Key)
  | OpDeleteKey (key : Key)
  | OpDeleteRec (key : Key)
  | OpDeleteRecWOLock (key : Key)
  | OpDeleteCache
  | OpUpdateRecState (key : Key) (recState : bool)
  | OpGetRec (key : Key)
  | OpGetDataRec (key : Key)
  | OpDoesKeyExist (key : Key)
  | OpGetCnt
  | OpSetCnt (val : Z)
  | OpLoad (isLoaderProvided : bool)
  | OpIterate (cacheName : string) (isIteratorProvided : bool)
  | OpLoadAndIterate (isLoaderProvided isIteratorProvided : bool)
  | OpAuxIterate (cacheName : string) (recHandler : option (Rec → bool))
  | OpRecLock (pRec : loc)
  | OpRecUnlock (pRec : loc).

Definition noError (e : option error) : bool :=
  match e with None => true | Some _ => false end.

(** Runs one call; the boolean tells whether the call reported success. *)
Definition exec (op : Op) (d : DataCache) : res (bool * DataCache) :=
  match op with
  | OpAddRec ks p f => let '((_, e), d') := AddRec ks p f d in Ok (noError e, d')
  | OpForceAddRec ks p => let '((_, e), d') := ForceAddRec ks p d in Ok (noError e, d')
  | OpAddAndGetRec ks p f =>
      '((_, _, e), d') ← AddAndGetRec ks p f d; Ok (noError e, d')
  | OpForceAddAndGetRec ks p =>
      '((_, _, e), d') ← ForceAddAndGetRec ks p d; Ok (noError e, d')
  | OpReAddRec k k' => let '((_, e), d') := ReAddRec k k' d in Ok (noError e, d')
  | OpReAddAndGetRec k k' =>
      '((_, _, e), d') ← ReAddAndGetRec k k' d; Ok (noError e, d')
  | OpDeleteKey k => let '(e, d') := DeleteKey k d in Ok (noError e, d')
  | OpDeleteRec k => '((_, e), d') ← DeleteRec k d; Ok (noError e, d')
  | OpDeleteRecWOLock k => '((b, _), d') ← DeleteRecWOLock k d; Ok (b, d')
  | OpDeleteCache => DeleteCache d
  | OpUpdateRecState k b => UpdateRecState k b d
  | OpGetRec k => '((b, _), d') ← GetRec k d; Ok (b, d')
  | OpGetDataRec k => '((b, _), d') ← GetDataRec k d; Ok (b, d')
  | OpDoesKeyExist k => Ok (DoesKeyExist k d, d)
  | OpGetCnt => Ok (fst (GetCnt d), d)
  | OpSetCnt v => let '((b, _), d') := SetCnt v d in Ok (b, d')
  | OpLoad b => let '((ok, _), d') := Load b d in Ok (ok, d')
  | OpIterate n b => '((ok, _), _, d') ← Iterate n b d; Ok (ok, d')
  | OpLoadAndIterate b1 b2 => '((ok, _), _, d') ← LoadAndIterate b1 b2 d; Ok (ok, d')
  | OpAuxIterate n f => '((ok, _), _, d') ← AuxIterate n f d; Ok (ok, d')
  | OpRecLock l => h ← RecLockAt l (recs d); Ok (true, set_recs h d)
  | OpRecUnlock l => h ← RecUnlockAt l (recs d); Ok (true, set_recs h d)
  end.



(** ** Predicates the properties are stated with *)

(** The keys that resolve to the record at [l]. *)
Definition keysOf (l : loc) (d : DataCache) : list Key :=
  (filter (λ kl, kl.2 = l) (map_to_list (cache d))).*1.


(** The pointer [l] refers to an allocated record that lists the key [k]
    among its aliases and carries a mutex. *)
Definition listed (h : list Rec) (k : Key) (l : loc) : Prop :=
  ∃ r, h !! l = Some r ∧ k ∈ KeyList r ∧ is_Some (pRecLock r).

Definition linked (h : list Rec) (c : gmap Key loc) : Prop :=
  ∀ k l, c !! k = Some l → listed h k l.

(** Every mapped key points at an allocated record that lists the key and
    carries a mutex. *)
Definition store_ok (d : DataCache) : Prop := linked (recs d) (cache d).

(** The arena only grows: a record stays where it is, keeps the aliases it
    lists and keeps its mutex. *)
Definition grows (h h' : list Rec) : Prop :=
  ∀ l r, h !! l = Some r →
    ∃ r', h' !! l = Some r' ∧ KeyList r ⊆ KeyList r' ∧
          (is_Some (pRecLock r) → is_Some (pRecLock r')).

(** Number of handler invocations made for the record at [l]. *)
Definition callsOn (l : loc) (cs : list call) : nat :=
  length (filter (λ c, c.1 = l) cs).

(** No record of the store is held locked. *)
Definition unheld (d : DataCache) : Prop :=
  ∀ k l r m, cache d !! k = Some l → recs d !! l = Some r →
    pRecLock r = Some m → isLocked m = false.

(** What the claim asks of an add that returns a count and an error. *)
Definition KeyExists_contract
    (add : list Key → iface → bool → DataCache → (Z * option error) * DataCache) : Prop :=
  ∀ keyList pRec d,
    let present := ∃ k, k ∈ keyList ∧ is_Some (cache d !! k) in
    (∀ n k d', add keyList pRec true d = ((n, Some (ErrKeyExists k)), d') →
       present ∧ d' = d) ∧
    (is_Some pRec → present →
       ∃ k, add keyList pRec true d = ((-1, Some (ErrKeyExists k)), d)).

(** The same for an add that also hands back the record. *)
Definition KeyExists_contract_get
    (add : list Key → iface → bool → DataCache →
           res ((Z * option loc * option error) * DataCache)) : Prop :=
  ∀ keyList pRec d,
    let present := ∃ k, k ∈ keyList ∧ is_Some (cache d !! k) in
    (∀ n p k d', add keyList pRec true d = Ok ((n, p, Some (ErrKeyExists k)), d') →
       present ∧ d' = d) ∧
    (is_Some pRec → present →
       ∃ k, add keyList pRec true d = Ok ((-1, None, Some (ErrKeyExists k)), d)).


(** ** Stores used as concrete instances *)

Definition ex_u1 : Key := KString "u1".
Definition ex_e1 : Key := KString "e1".
Definition ex_u2 : Key := KString "u2".

(** [Add({"u1","e1"}, payloadA, failIfExists=true)] on a fresh store. *)
Definition ex_one : DataCache :=
  (AddRec [ex_u1; ex_e1] (Some 1) true (Create None None)).2.


(** A record under the Go [int] key [0] and another under ["x"]. *)
Definition ex_two : DataCache :=
  (AddRec [KString "x"] (Some 2) true
     (AddRec [KInt 0] (Some 1) true (Create None None)).2).2.

(** A loader that yields one pair with two aliases, and a handler. *)
Definition ex_loader : LoadFunc := λ _, (true, [mkPayload [ex_u1; ex_e1] (Some 7)]).
Definition ex_handler : RecHandlerFunc := λ _, true.
Definition ex_fresh : DataCache := Create (Some ex_loader) (Some ex_handler).
Definition ex_loaded : DataCache := (Load true ex_fresh).2.

(** Executable forms of [store_ok] and [unheld]. *)
Definition entry_ok (h : list Rec) (kl : Key * loc) : bool :=
  match h !! kl.2 with
  | Some r =>
      bool_decide (kl.1 ∈ KeyList r) &&
      match pRecLock r with Some _ => true | None => false end
  | None => false
  end.

Definition store_okb (d : DataCache) : bool :=
  forallb (entry_ok (recs d)) (map_to_list (cache d)).

Definition entry_free (h : list Rec) (kl : Key * loc) : bool :=
  match h !! kl.2 with
  | Some r => match pRecLock r with Some m => negb (isLocked m) | None => true end
  | None => true
  end.

Definition unheldb (d : DataCache) : bool :=
  forallb (entry_free (recs d)) (map_to_list (cache d)).

(** The handler runs exactly once for every record in the store. *)
Definition once_per_record (d : DataCache) (cs : list call) : Prop :=
  ∀ l, (∃ k, cache d !! k = Some l) → callsOn l cs = 1%nat.

(** ** Counting calls in a run *)





(** The records that can be reached through some key. *)
Definition records (d : DataCache) : gset nat := map_img (cache d).


(** ** Lock state of the record behind a pointer *)

(** The record at [l] carries a mutex, and that mutex is free. *)
Definition freeAt (l : loc) (h : list Rec) : Prop :=
  ∃ r m, h !! l = Some r ∧ pRecLock r = Some m ∧ isLocked m = false.

(** The record at [l] carries a mutex, and that mutex is held. *)
Definition heldAt (l : loc) (h : list Rec) : Prop :=
  ∃ r m, h !! l = Some r ∧ pRecLock r = Some m ∧ isLocked m = true.

(** Two records that differ at most in the state of their mutex. *)
Definition same_data (r r' : Rec) : Prop :=
  KeyList r' = KeyList r ∧ PDataRec r' = PDataRec r ∧
  isActive r' = isActive r ∧ refcnt r' = refcnt r.


(** * Properties *)

(** ** The mutex bit *)

Section mutex.

Lemma land_mutexLocked (s : Z) : Z.land s mutexLocked = s mod 2.
Proof. exact (Z.land_ones s 1 ltac:(lia)). Qed.

Lemma isLocked_true (m : Mutex) : isLocked m = true ↔ state m mod 2 = 1.
Proof.
  unfold isLocked. rewrite land_mutexLocked. unfold mutexLocked.
  split; intros H; [by apply Z.eqb_eq | by apply Z.eqb_eq].
Qed.

Lemma isLocked_false (m : Mutex) : isLocked m = false ↔ state m mod 2 = 0.
Proof.
  unfold isLocked. rewrite land_mutexLocked. unfold mutexLocked.
  rewrite Z.eqb_neq. pose proof (Z.mod_pos_bound (state m) 2). lia.
Qed.

Lemma lor_mutexLocked (s : Z) : s mod 2 = 0 → Z.lor s mutexLocked = s + 1.
Proof.
  intros H. unfold mutexLocked. symmetry. apply Z.add_nocarry_lor.
  change (Z.land s mutexLocked = 0). by rewrite land_mutexLocked.
Qed.

(** A free mutex can be taken, and is then held. *)
Lemma Mutex_Lock_free (m : Mutex) :
  isLocked m = false →
  Mutex_Lock m = Ok (mkMutex (state m + 1)) ∧ isLocked (mkMutex (state m + 1)) = true.
Proof.
  intros H. unfold Mutex_Lock. rewrite H.
  apply isLocked_false in H. rewrite (lor_mutexLocked _ H). split; [done |].
  apply isLocked_true. simpl.
  rewrite Z.add_mod, H by lia. reflexivity.
Qed.

Lemma Mutex_Lock_held (m : Mutex) : isLocked m = true → Mutex_Lock m = Block.
Proof. intros H. unfold Mutex_Lock. by rewrite H. Qed.

(** Releasing a held mutex leaves it free. *)
Lemma Mutex_Unlock_held (m : Mutex) :
  isLocked m = true →
  Mutex_Unlock m = Ok (mkMutex (state m - 1)) ∧ isLocked (mkMutex (state m - 1)) = false.
Proof.
  intros H. unfold Mutex_Unlock. rewrite H. split; [done |].
  apply isLocked_true in H. apply isLocked_false. simpl.
  rewrite Zminus_mod, H. reflexivity.
Qed.

(** Taking and releasing a free mutex restores its state word. *)
Lemma Mutex_Lock_Unlock (m : Mutex) :
  isLocked m = false →
  ∃ m1, Mutex_Lock m = Ok m1 ∧ Mutex_Unlock m1 = Ok m.
Proof.
  intros H. destruct (Mutex_Lock_free m H) as [HL Hheld].
  eexists; split; [exact HL |].
  destruct (Mutex_Unlock_held _ Hheld) as [HU _]. rewrite HU. simpl.
  destruct m as [s]. simpl. do 2 f_equal. lia.
Qed.

End mutex.

(** ** Go [int] arithmetic *)

Lemma int_wrap_add_l (a b : Z) : int_wrap (int_wrap a + b) = int_wrap (a + b).
Proof.
  unfold int_wrap. f_equal.
  replace ((a + 2 ^ 63) mod 2 ^ 64 - 2 ^ 63 + b + 2 ^ 63)
    with ((a + 2 ^ 63) mod 2 ^ 64 + b) by lia.
  rewrite Zplus_mod_idemp_l. f_equal. lia.
Qed.

Lemma int_wrap_small (z : Z) : - 2 ^ 63 ≤ z < 2 ^ 63 → int_wrap z = z.
Proof. intros H. unfold int_wrap. rewrite Z.mod_small; lia. Qed.

(** ** Unlocking a record *)

(** C9.  [RecUnlock] on a record whose lock is not held changes nothing: the
    record, lock word included, is the same afterwards.  On a held lock it
    releases the lock and touches no other field.  A nil record or a nil
    lock is left alone as well.  In no case does the call panic or park. *)
Theorem RecUnlock_tolerant (pRec : option Rec) :
  (∀ r m, pRec = Some r → pRecLock r = Some m → isLocked m = false →
     ∃ out, RecUnlock pRec = Ok (Some r, out)) ∧
  (∀ r m, pRec = Some r → pRecLock r = Some m → isLocked m = true →
     ∃ m' out, RecUnlock pRec = Ok (Some (set_pRecLock (Some m') r), out) ∧
               isLocked m' = false) ∧
  (pRec = None → RecUnlock pRec = Ok (None, [])) ∧
  (∀ r, pRec = Some r → pRecLock r = None →
     ∃ out, RecUnlock pRec = Ok (Some r, out)) ∧
  RecUnlock pRec ≠ Panic ∧ RecUnlock pRec ≠ Block.
Proof.
  repeat split.
  - intros r m -> Hm Hfree. unfold RecUnlock. rewrite Hm, Hfree. eauto.
  - intros r m -> Hm Hheld. unfold RecUnlock. rewrite Hm, Hheld.
    destruct (Mutex_Unlock_held m Hheld) as [-> Hfree]. simpl. eauto.
  - by intros ->.
  - intros r -> Hm. unfold RecUnlock. rewrite Hm. eauto.
  - destruct pRec as [r|]; [| done]. unfold RecUnlock.
    destruct (pRecLock r) as [m|]; [| done].
    destruct (isLocked m) eqn:E; [| done].
    by destruct (Mutex_Unlock_held m E) as [-> _].
  - destruct pRec as [r|]; [| done]. unfold RecUnlock.
    destruct (pRecLock r) as [m|]; [| done].
    destruct (isLocked m) eqn:E; [| done].
    by destruct (Mutex_Unlock_held m E) as [-> _].
Qed.

(** A freshly made record is free: unlocking it again leaves it as it is. *)
Lemma RecUnlock_tolerant_witness :
  ∃ out, RecUnlock (Some (newRec [KInt 1] (Some 5)))
         = Ok (Some (newRec [KInt 1] (Some 5)), out).
Proof.
  destruct (RecUnlock_tolerant (Some (newRec [KInt 1] (Some 5)))) as [H _].
  apply (H (newRec [KInt 1] (Some 5)) (mkMutex 0)); reflexivity.
Defined.

(** ** Adding with the existence check *)

Section existence_check.

Lemma firstExisting_Some c keyList k :
  firstExisting c keyList = Some k → k ∈ keyList ∧ is_Some (c !! k).
Proof.
  induction keyList as [|k0 ks IH]; simpl; [done |].
  destruct (c !! k0) eqn:E.
  - intros [= <-]. split; [left | by rewrite E].
  - intros H. destruct (IH H) as [? ?]. split; [by right | done].
Qed.

Lemma firstExisting_None c keyList :
  firstExisting c keyList = None ↔ ∀ k, k ∈ keyList → c !! k = None.
Proof.
  induction keyList as [|k0 ks IH]; simpl.
  - split; [| done]. intros _ k Hk. by apply elem_of_nil in Hk.
  - destruct (c !! k0) eqn:E.
    + split; [done |]. intros H. specialize (H k0 ltac:(left)). congruence.
    + rewrite IH. split.
      * intros H k [-> | Hk]%elem_of_cons; [done | by apply H].
      * intros H k Hk. apply H. by right.
Qed.

Lemma firstExisting_present c keyList :
  (∃ k, k ∈ keyList ∧ is_Some (c !! k)) → ∃ k, firstExisting c keyList = Some k.
Proof.
  intros (k & Hk & [l Hl]).
  destruct (firstExisting c keyList) as [k'|] eqn:E; [eauto |].
  rewrite firstExisting_None in E. rewrite (E k Hk) in Hl. done.
Qed.

End existence_check.

Lemma AddRec_KeyExists : KeyExists_contract AddRec.
Proof.
  intros keyList pRec d present. unfold AddRec. split.
  - intros n k d' H. destruct pRec as [p|]; [| done].
    destruct (firstExisting (cache d) keyList) as [k'|] eqn:E; [| done].
    injection H as _ <- <-. split; [| done].
    exists k'. by apply firstExisting_Some.
  - intros [p ->] Hp. destruct (firstExisting_present _ _ Hp) as [k ->]. eauto.
Qed.

Lemma AddAndGetRec_KeyExists : KeyExists_contract_get AddAndGetRec.
Proof.
  intros keyList pRec d present. unfold AddAndGetRec. split.
  - intros n p k d' H. destruct pRec as [p0|]; [| done].
    destruct (firstExisting (cache d) keyList) as [k'|] eqn:E.
    + injection H as _ _ <- <-. split; [| done].
      exists k'. by apply firstExisting_Some.
    + destruct (lockFirst _ _) as [[l d1]| |]; done.
  - intros [p ->] Hp. destruct (firstExisting_present _ _ Hp) as [k ->]. eauto.
Qed.

(** C5.  With the existence check on, an add of a non-nil payload fails with
    [KeyExists] exactly when a supplied key already resolves to a record, and
    a call that fails so returns the store it was given: mapping, counter and
    records untouched.  This holds of [AddRec], [AddAndGetRec] and their
    [WOLock] twins. *)
Theorem Add_fails_KeyExists_iff_present :
  KeyExists_contract AddRec ∧ KeyExists_contract AddRecWOLock ∧
  KeyExists_contract_get AddAndGetRec ∧ KeyExists_contract_get AddAndGetRecWOLock.
Proof.
  split; [exact AddRec_KeyExists |].
  split; [exact AddRec_KeyExists |].
  split; exact AddAndGetRec_KeyExists.
Qed.

(** A present key makes [AddRec] refuse, whatever else is supplied. *)
Lemma Add_fails_KeyExists_witness :
  ∃ k, AddRec [ex_u2; ex_u1] (Some 2) true ex_one
       = ((-1, Some (ErrKeyExists k)), ex_one).
Proof.
  destruct Add_fails_KeyExists_iff_present as [H _].
  destruct (H [ex_u2; ex_u1] (Some 2) ex_one) as [_ H2].
  apply H2; [by eexists |].
  exists ex_u1. split; [right; left |]. vm_compute. by eexists.
Defined.

(** ** Aliasing *)




(** ** Taking and releasing a record lock *)

Lemma set_pRecLock_same (r : Rec) (m : Mutex) :
  pRecLock r = Some m → set_pRecLock (Some m) r = r.
Proof. destruct r; simpl. by intros ->. Qed.

Section record_locks.

Variables (h : list Rec) (l : loc) (r : Rec) (m : Mutex).
Hypothesis Hr : h !! l = Some r.
Hypothesis Hm : pRecLock r = Some m.

Lemma lockAt_held : isLocked m = true → lockAt l h = Block.
Proof using Hr Hm.
  intros Hheld. unfold lockAt. rewrite Hr, Hm.
  by rewrite (Mutex_Lock_held m Hheld).
Qed.

(** The rendezvous of the delete path: on a free record, lock then unlock
    succeed and give the arena back as it was. *)
Lemma lockAt_unlockAt :
  isLocked m = false → ∃ h1, lockAt l h = Ok h1 ∧ unlockAt l h1 = Ok h ∧
                             h1 !! l = Some (set_pRecLock (Some (mkMutex (state m + 1))) r).
Proof using Hr Hm.
  intros Hfree. pose proof (lookup_lt_Some _ _ _ Hr) as Hlt.
  destruct (Mutex_Lock_free m Hfree) as [HL Hheld].
  destruct (Mutex_Unlock_held _ Hheld) as [HU _].
  eexists.
  split; [unfold lockAt; rewrite Hr, Hm, HL; cbn [mbind res_bind]; reflexivity |].
  split; [| by apply list_lookup_insert_eq].
  unfold unlockAt. rewrite list_lookup_insert_eq by done.
  cbn [pRecLock set_pRecLock]. rewrite HU. cbn [state mbind res_bind].
  rewrite list_insert_insert_eq. f_equal. apply list_insert_id.
  rewrite Hr. f_equal. replace (state m + 1 - 1) with (state m) by lia.
  clear -Hm. destruct r, m; simpl in *. by rewrite Hm.
Qed.

End record_locks.

Lemma lockIfAny_unlockIfAny (h : list Rec) (l : loc) (r : Rec) :
  h !! l = Some r →
  (∀ m, pRecLock r = Some m → isLocked m = false) →
  ∃ h1, lockIfAny l h = Ok h1 ∧ unlockIfAny l h1 = Ok h.
Proof.
  intros Hr Hfree. unfold lockIfAny. rewrite Hr.
  destruct (pRecLock r) as [m|] eqn:Hm.
  - destruct (lockAt_unlockAt h l r m Hr Hm (Hfree m eq_refl)) as (h1 & HL & HU & Hl1).
    exists h1. split; [done |]. unfold unlockIfAny. by rewrite Hl1.
  - exists h. split; [done |]. unfold unlockIfAny. by rewrite Hr, Hm.
Qed.

(** ** Unlinking keys *)

Lemma deleteKeys_lookup_in (c : gmap Key loc) (keylist : list Key) (k : Key) :
  k ∈ keylist → deleteKeys c keylist !! k = None.
Proof.
  revert c. induction keylist as [|k0 ks IH]; intros c Hk; simpl.
  - by apply elem_of_nil in Hk.
  - destruct (decide (k ∈ ks)) as [Hin | Hnin]; [by apply IH |].
    apply elem_of_cons in Hk as [-> | ?]; [| done].
    clear IH. revert c. induction ks as [|k1 ks IH]; intros c; simpl.
    + apply lookup_delete_eq.
    + apply not_elem_of_cons in Hnin as [Hne Hnin].
      rewrite delete_delete. by apply IH.
Qed.

Lemma deleteKeys_lookup_notin (c : gmap Key loc) (keylist : list Key) (k : Key) :
  k ∉ keylist → deleteKeys c keylist !! k = c !! k.
Proof.
  revert c. induction keylist as [|k0 ks IH]; intros c Hk; simpl; [done |].
  apply not_elem_of_cons in Hk as [Hne Hk].
  rewrite IH by done. by apply lookup_delete_ne.
Qed.

Lemma deleteKeys_all (c : gmap Key loc) : deleteKeys c (map_to_list c).*1 = ∅.
Proof.
  apply map_empty. intros k.
  destruct (c !! k) as [l|] eqn:E.
  - apply deleteKeys_lookup_in. apply list_elem_of_fmap. exists (k, l).
    split; [done |]. by apply elem_of_map_to_list.
  - destruct (decide (k ∈ (map_to_list c).*1)) as [Hin | Hnin].
    + by apply deleteKeys_lookup_in.
    + by rewrite deleteKeys_lookup_notin.
Qed.

(** ** Deleting a record *)

(** C6.  [DeleteRec] on an absent key fails with the key-not-found error and
    returns the store as it was.  On a present key whose record is free it
    succeeds: every key of the record's alias list is unmapped, every other
    key resolves as before, the counter goes down by one (in Go [int]
    arithmetic, so by exactly one unless it sits at the least [int]) and is
    the count returned, and the arena is as before.  In a
    store whose mapped keys are listed by their records, no key that resolved
    to the record resolves afterwards.  While the record is held the call
    does not return. *)
Theorem DeleteRec_unlinks_record (key : Key) (d : DataCache) :
  (cache d !! key = None →
     DeleteRec key d = Ok ((-1, Some ErrKeyDoesntExist), d)) ∧
  (∀ l r m, cache d !! key = Some l → recs d !! l = Some r → pRecLock r = Some m →
     (isLocked m = true → DeleteRec key d = Block) ∧
     (isLocked m = false →
        ∃ d', DeleteRec key d = Ok ((int_sub (cnt d) 1, None), d') ∧
              cnt d' = int_sub (cnt d) 1 ∧
              (- 2 ^ 63 < cnt d < 2 ^ 63 → cnt d' = cnt d - 1) ∧
              (∀ k, k ∈ KeyList r → cache d' !! k = None) ∧
              (∀ k, k ∉ KeyList r → cache d' !! k = cache d !! k) ∧
              (store_ok d → ∀ k, cache d !! k = Some l → cache d' !! k = None) ∧
              recs d' = recs d)).
Proof.
  unfold DeleteRec. split; [by intros -> |].
  intros l r m -> Hr Hm. split.
  - intros Hheld. by rewrite (lockAt_held _ _ _ _ Hr Hm Hheld).
  - intros Hfree.
    destruct (lockAt_unlockAt _ _ _ _ Hr Hm Hfree) as (h1 & -> & HU & _).
    cbn [mbind res_bind]. rewrite HU. cbn [mbind res_bind].
    unfold keyListAt. rewrite Hr. cbn [mbind res_bind].
    eexists. split; [reflexivity |]. cbn [cnt cache recs].
    split; [done |].
    split; [intros Hfit; apply int_wrap_small; lia |].
    split; [intros k Hk; by apply deleteKeys_lookup_in |].
    split; [intros k Hk; by apply deleteKeys_lookup_notin |].
    split; [| done].
    intros Hok k Hk. destruct (Hok k l Hk) as (r' & Hr' & Hin & _).
    apply deleteKeys_lookup_in. congruence.
Qed.

(** [DeleteRec("e1")] in the scenario removes [u1] and [e1] together. *)
Lemma DeleteRec_unlinks_record_witness :
  ∃ d', DeleteRec ex_e1 ex_one = Ok ((0, None), d') ∧
        cache d' !! ex_u1 = None ∧ cache d' !! ex_e1 = None.
Proof.
  destruct (DeleteRec_unlinks_record ex_e1 ex_one) as [_ H].
  destruct (H 0%nat (newRec [ex_u1; ex_e1] (Some 1)) (mkMutex 0)
              eq_refl eq_refl eq_refl) as [_ H2].
  destruct (H2 eq_refl) as (d' & E & _ & _ & Hin & _).
  exists d'. split; [exact E |].
  split; apply Hin; [left | right; left].
Defined.

(** The caller-holds-lock twin unlinks in the same way, but answers an absent
    key with [(true, 0)] instead of an error. *)
Lemma DeleteRecWOLock_absent (key : Key) (d : DataCache) :
  cache d !! key = None → DeleteRecWOLock key d = Ok ((true, 0), d).
Proof. unfold DeleteRecWOLock. by intros ->. Qed.

(** ** The executable checks decide the predicates *)

Lemma store_okb_sound (d : DataCache) : store_okb d = true → store_ok d.
Proof.
  unfold store_okb, store_ok, linked, listed. rewrite forallb_forall.
  intros H k l Hk. apply elem_of_map_to_list, list_elem_of_In in Hk.
  specialize (H _ Hk). unfold entry_ok in H. cbn [fst snd] in H.
  destruct (recs d !! l) as [r|]; [| done].
  apply andb_prop in H as [Hin Hm]. apply bool_decide_eq_true in Hin.
  exists r. split; [done |]. split; [done |].
  destruct (pRecLock r); [by eexists | done].
Qed.

Lemma unheldb_sound (d : DataCache) : unheldb d = true → unheld d.
Proof.
  unfold unheldb, unheld. rewrite forallb_forall.
  intros H k l r m Hk Hr Hm. apply elem_of_map_to_list, list_elem_of_In in Hk.
  specialize (H _ Hk). unfold entry_free in H. cbn [snd] in H.
  rewrite Hr, Hm in H. by apply negb_true_iff in H.
Qed.

(** ** Clearing the store *)

Lemma clearEntries_free (entries : list (Key * loc)) (d : DataCache) :
  (∀ k l, (k, l) ∈ entries →
     ∃ r, recs d !! l = Some r ∧ ∀ m, pRecLock r = Some m → isLocked m = false) →
  clearEntries entries d = Ok (set_cache (deleteKeys (cache d) entries.*1) d).
Proof.
  revert d. induction entries as [|[key l] rest IH]; intros d Hfree.
  - by destruct d.
  - destruct (Hfree key l ltac:(left)) as (r & Hr & Hm).
    destruct (lockIfAny_unlockIfAny _ _ _ Hr Hm) as (h1 & HL & HU).
    cbn [clearEntries]. rewrite HL. cbn [mbind res_bind].
    rewrite HU. cbn [mbind res_bind].
    rewrite IH.
    + by destruct d.
    + intros k' l' Hin. destruct d. apply (Hfree k' l'). by right.
Qed.

(** C10.  On a store whose records are all free, [DeleteCache] (and
    [DeleteCacheWOLock]) returns [true] and leaves the key-to-record mapping
    empty, while the record counter keeps its value: [GetCnt] afterwards
    still reports the count from before the deletion. *)
Theorem DeleteCache_keeps_counter (d : DataCache) :
  store_ok d → unheld d →
  ∃ d', DeleteCache d = Ok (true, d') ∧ DeleteCacheWOLock d = Ok (true, d') ∧
        cache d' = ∅ ∧ cnt d' = cnt d ∧ GetCnt d' = (true, cnt d).
Proof.
  intros Hok Hfree.
  assert (clearEntries (map_to_list (cache d)) d = Ok (set_cache ∅ d)) as E.
  { rewrite clearEntries_free; [by rewrite deleteKeys_all |].
    intros k l Hin%elem_of_map_to_list.
    destruct (Hok k l Hin) as (r & Hr & _ & _).
    exists r. split; [done |]. intros m Hm. by apply (Hfree k l r m). }
  exists (set_cache ∅ d). unfold DeleteCacheWOLock, DeleteCache. rewrite E.
  by destruct d.
Qed.

(** One record under two keys, counter at one: afterwards the mapping is
    empty and the counter still reads one. *)
Lemma DeleteCache_keeps_counter_witness :
  ∃ d', DeleteCache ex_one = Ok (true, d') ∧ cache d' = ∅ ∧ GetCnt d' = (true, 1).
Proof.
  destruct (DeleteCache_keeps_counter ex_one) as (d' & E & _ & Hc & _ & Hn).
  - apply store_okb_sound. vm_compute. reflexivity.
  - apply unheldb_sound. vm_compute. reflexivity.
  - exists d'. split; [exact E |]. split; [exact Hc | exact Hn].
Defined.

(** ** The arena grows, the links stay *)

Ltac res_inv H :=
  repeat match type of H with
  | (?m ≫= _) = Ok _ =>
      let E := fresh "E" in
      destruct m eqn:E; cbn [mbind res_bind] in H; [| discriminate H | discriminate H]
  end.



Lemma grows_app (h : list Rec) (r : Rec) : grows h (h ++ [r]).
Proof.
  intros l r0 Hr. exists r0. split; [by apply lookup_app_l_Some |]. by split.
Qed.









Lemma listed_grows (h h' : list Rec) (k : Key) (l : loc) :
  grows h h' → listed h k l → listed h' k l.
Proof.
  intros Hg (r & Hr & Hk & Hm). destruct (Hg l r Hr) as (r' & Hr' & Hk' & Hm').
  exists r'. split; [done |]. split; [set_solver | tauto].
Qed.

Lemma linked_grows (h h' : list Rec) (c : gmap Key loc) :
  grows h h' → linked h c → linked h' c.
Proof. intros Hg Hc k l Hk. eapply listed_grows; [done | by apply Hc]. Qed.





Lemma linked_insert (h : list Rec) (c : gmap Key loc) (k : Key) (l : loc) :
  linked h c → listed h k l → linked h (<[k := l]> c).
Proof.
  intros Hc Hl k' l' Hk'. destruct (decide (k = k')) as [<- | Hne].
  - rewrite lookup_insert_eq in Hk'. by injection Hk' as <-.
  - rewrite lookup_insert_ne in Hk' by done. by apply Hc.
Qed.

Lemma linked_mapKeys (h : list Rec) (c : gmap Key loc) (keyList : list Key) (l : loc) :
  linked h c → (∀ k, k ∈ keyList → listed h k l) → linked h (mapKeys c keyList l).
Proof.
  revert c. induction keyList as [|k ks IH]; intros c Hc Hl; simpl; [done |].
  apply IH.
  - apply linked_insert; [done |]. apply Hl. left.
  - intros k' Hk'. apply Hl. by right.
Qed.

(** Allocating a record for [keyList] and mapping its keys keeps the links. *)
Lemma linked_new (h : list Rec) (c : gmap Key loc) (keyList : list Key) (pRec : iface) :
  linked h c →
  linked (h ++ [newRec keyList pRec]) (mapKeys c keyList (length h)).
Proof.
  intros Hc. apply linked_mapKeys.
  - eapply linked_grows; [apply grows_app | done].
  - intros k Hk. exists (newRec keyList pRec).
    split; [| split; [done | by eexists]].
    rewrite lookup_app_r by done. by rewrite Nat.sub_diag.
Qed.


Lemma linked_loadRecs (recList : list Payload) (h : list Rec) (c : gmap Key loc) :
  linked h c → linked (loadRecs recList h c).1 (loadRecs recList h c).2.
Proof.
  revert h c. induction recList as [|p ps IH]; intros h c Hc; simpl; [done |].
  by apply IH, linked_new.
Qed.

Lemma store_ok_loaded (recList : list Payload) (d : DataCache) :
  store_ok d → store_ok (loaded recList d).
Proof.
  intros Hd. unfold loaded, store_ok.
  pose proof (linked_loadRecs recList _ _ Hd) as H.
  by destruct (loadRecs recList (recs d) (cache d)).
Qed.


Lemma store_ok_set_singletonFlag (b : bool) (d : DataCache) :
  store_ok d → store_ok (set_singletonFlag b d).
Proof. done. Qed.

(** ** Every call keeps the store linked *)




























(** ** Alias symmetry *)






(** ** Forced adds *)

(** What the force adds do get right: with a non-nil payload the call
    succeeds, every supplied key resolves to the one new record, and the
    counter goes up by one. *)
Lemma mapKeys_lookup_in (c : gmap Key loc) (keyList : list Key) (l : loc) (k : Key) :
  k ∈ keyList → mapKeys c keyList l !! k = Some l.
Proof.
  revert c. induction keyList as [|k0 ks IH]; intros c Hk; simpl.
  - by apply elem_of_nil in Hk.
  - destruct (decide (k ∈ ks)) as [Hin | Hnin]; [by apply IH |].
    apply elem_of_cons in Hk as [-> | ?]; [| done].
    clear IH. revert c. induction ks as [|k1 ks IH]; intros c; simpl.
    + apply lookup_insert_eq.
    + apply not_elem_of_cons in Hnin as [Hne Hnin].
      rewrite insert_insert_ne by done. by apply IH.
Qed.

Lemma mapKeys_lookup_notin (c : gmap Key loc) (keyList : list Key) (l : loc) (k : Key) :
  k ∉ keyList → mapKeys c keyList l !! k = c !! k.
Proof.
  revert c. induction keyList as [|k0 ks IH]; intros c Hk; simpl; [done |].
  apply not_elem_of_cons in Hk as [Hne Hk].
  rewrite IH by done. by apply lookup_insert_ne.
Qed.

Lemma ForceAddRec_maps_supplied (keyList : list Key) (p : Z) (d : DataCache) :
  ∃ d', ForceAddRec keyList (Some p) d = ((int_add (cnt d) 1, None), d') ∧
        cnt d' = int_add (cnt d) 1 ∧
        recs d' = recs d ++ [newRec keyList (Some p)] ∧
        ∀ k, k ∈ keyList → cache d' !! k = Some (length (recs d)).
Proof.
  eexists. split; [reflexivity |]. split; [done |]. split; [done |].
  intros k Hk. by apply mapKeys_lookup_in.
Qed.

(** C2.  The displacement loop deletes the loop index, not the key found at
    that index.  In a store holding one record under the Go [int] key [0]
    and one under ["x"], a forced add of the single key ["x"] removes the
    mapping of [0], a key that was not supplied; the record it pointed to is
    left without any key.  [ForceAddRecWOLock] is the same function. *)
Theorem ForceAddRec_unmaps_index_key :
  let d' := (ForceAddRec [KString "x"] (Some 3) ex_two).2 in
  (KInt 0 ∉ [KString "x"]) ∧
  cache ex_two !! KInt 0 = Some 0%nat ∧
  cache d' !! KInt 0 = None ∧
  cache d' !! KString "x" = Some 2%nat ∧
  (ForceAddRecWOLock [KString "x"] (Some 3) ex_two).2 = d'.
Proof.
  cbv zeta. split; [| by vm_compute].
  intros H. apply list_elem_of_singleton in H. discriminate H.
Qed.

(** ** The one-shot flag of [Load] *)

(** C4, as stated, fails: with an iterator registered the first [Load] does
    not raise the one-shot flag, and a second [Load] succeeds and runs the
    loader again, allocating a second record. *)
Lemma Load_twice_succeeds_with_iterator :
  (Load true ex_fresh).1 = (true, None) ∧
  (Load true (Load true ex_fresh).2).1 = (true, None) ∧
  (Load true (Load true ex_fresh).2).1 ≠ (false, Some ErrAlreadyLoaded) ∧
  length (recs (Load true ex_fresh).2) = 1%nat ∧
  length (recs (Load true (Load true ex_fresh).2).2) = 2%nat.
Proof. by vm_compute. Qed.

Lemma reciteratefn_loaded recList d : reciteratefn (loaded recList d) = reciteratefn d.
Proof. unfold loaded. by destruct (loadRecs _ _ _). Qed.

Lemma singletonFlag_loaded recList d : singletonFlag (loaded recList d) = singletonFlag d.
Proof. unfold loaded. by destruct (loadRecs _ _ _). Qed.

Lemma reciteratefn_Load b d : reciteratefn (Load b d).2 = reciteratefn d.
Proof.
  assert (∀ d0, reciteratefn (Load_deferred d0) = reciteratefn d0) as Hdef.
  { intros d0. unfold Load_deferred. by destruct (reciteratefn d0) eqn:E. }
  unfold Load. destruct (singletonFlag d); [apply Hdef |].
  destruct (loadfn d) as [f|].
  - destruct (f ()) as [[] recList]; cbn [snd]; rewrite Hdef; [| done].
    apply reciteratefn_loaded.
  - destruct b; apply Hdef.
Qed.

(** C4, amended.  On a store with no iterator registered, once a first call
    to [Load] has completed (whatever it returned) the one-shot flag is set
    and a second call fails with the already-loaded error and returns the
    store as it found it.  With an iterator registered, [Load] leaves the
    flag as it was. *)
Theorem Load_one_shot_without_iterator (b1 b2 : bool) (d : DataCache) :
  (reciteratefn d = None →
     singletonFlag (Load b1 d).2 = true ∧
     Load b2 (Load b1 d).2 = ((false, Some ErrAlreadyLoaded), (Load b1 d).2)) ∧
  (is_Some (reciteratefn d) → singletonFlag (Load b1 d).2 = singletonFlag d).
Proof.
  split.
  - intros Hnone.
    assert (singletonFlag (Load b1 d).2 = true) as Hflag.
    { unfold Load. destruct (singletonFlag d) eqn:Hs.
      { unfold Load_deferred. by rewrite Hnone. }
      destruct (loadfn d) as [f|].
      - destruct (f ()) as [[] recList]; cbn [snd]; unfold Load_deferred.
        + by rewrite reciteratefn_loaded, Hnone.
        + by rewrite Hnone.
      - destruct b1; cbn [snd]; unfold Load_deferred; by rewrite Hnone. }
    split; [done |].
    pose proof (reciteratefn_Load b1 d) as Hit. rewrite Hnone in Hit.
    unfold Load at 1. rewrite Hflag. f_equal.
    unfold Load_deferred. rewrite Hit.
    destruct (Load b1 d).2; simpl in *. by rewrite Hflag.
  - intros [f Hf]. unfold Load. destruct (singletonFlag d) eqn:Hs.
    { unfold Load_deferred. by rewrite Hf. }
    destruct (loadfn d) as [g|].
    + destruct (g ()) as [[] recList]; cbn [snd]; unfold Load_deferred.
      * by rewrite reciteratefn_loaded, Hf, singletonFlag_loaded.
      * by rewrite Hf.
    + destruct b1; cbn [snd]; unfold Load_deferred; by rewrite Hf.
Qed.

(** A store created without callbacks: the second [Load] is refused. *)
Lemma Load_one_shot_witness :
  Load false (Load false (Create None None)).2
  = ((false, Some ErrAlreadyLoaded), (Load false (Create None None)).2).
Proof.
  destruct (Load_one_shot_without_iterator false false (Create None None)) as [H _].
  destruct (H eq_refl) as [_ E]. exact E.
Defined.

(** ** Load-time iteration *)

Lemma visit_total (entries : list (Key * loc)) (h : list Rec) :
  (∀ k l, (k, l) ∈ entries → is_Some (h !! l)) → ∃ cs, visit entries h = Ok cs.
Proof.
  induction entries as [|[k l] rest IH]; intros Hall; [by eexists |].
  destruct (Hall k l ltac:(left)) as [r Hr].
  destruct IH as [cs Hcs]; [intros k' l' Hin; apply (Hall k' l'); by right |].
  exists ((l, PDataRec r) :: cs). cbn [visit]. by rewrite Hr, Hcs.
Qed.

(** One invocation per entry, made for the record the entry points to and
    given that record's payload. *)
Lemma visit_calls (entries : list (Key * loc)) (h : list Rec) (cs : list call) :
  visit entries h = Ok cs →
  length cs = length entries ∧
  (∀ l, callsOn l cs = length (filter (λ kl : Key * loc, kl.2 = l) entries)) ∧
  (∀ l a, (l, a) ∈ cs → ∃ r, h !! l = Some r ∧ a = PDataRec r).
Proof.
  revert cs. induction entries as [|[k l0] rest IH]; intros cs H.
  - injection H as <-. repeat split; [| done..].
    intros l a Hin. by apply elem_of_nil in Hin.
  - cbn [visit] in H. destruct (h !! l0) as [r|] eqn:Hr; [| done].
    res_inv H. injection H as <-.
    destruct (IH a eq_refl) as (Hlen & Hcalls & Hargs).
    split; [simpl; by rewrite Hlen |]. split.
    + intros l. unfold callsOn in *. rewrite !filter_cons. cbn [fst snd].
      destruct (decide (l0 = l)); simpl; by rewrite Hcalls.
    + intros l a0 [[= -> ->] | Hin]%elem_of_cons; [eauto | by apply Hargs].
Qed.

Lemma visit_store (d : DataCache) :
  store_ok d →
  ∃ cs, visit (map_to_list (cache d)) (recs d) = Ok cs ∧
        length cs = size (cache d) ∧
        (∀ l, callsOn l cs = length (keysOf l d)) ∧
        (∀ l a, (l, a) ∈ cs → ∃ r, recs d !! l = Some r ∧ a = PDataRec r).
Proof.
  intros Hd.
  destruct (visit_total (map_to_list (cache d)) (recs d)) as [cs Hcs].
  { intros k l Hin%elem_of_map_to_list.
    destruct (Hd k l Hin) as (r & Hr & _). by exists r. }
  destruct (visit_calls _ _ _ Hcs) as (Hlen & Hcalls & Hargs).
  exists cs. split; [done |].
  split; [by rewrite Hlen, length_map_to_list |].
  split; [| done].
  intros l. unfold keysOf. by rewrite length_fmap.
Qed.

(** C3, as stated, fails: after loading one record with the two aliases
    [u1] and [e1], a successful [Iterate] (and the iteration phase of
    [LoadAndIterate]) invokes the handler twice for that one record. *)
Lemma Iterate_twice_on_two_aliases :
  let cs := [(0%nat, Some 7); (0%nat, Some 7)] in
  Iterate "users" true ex_loaded = Ok ((true, None), cs, set_singletonFlag true ex_loaded) ∧
  LoadAndIterate true true ex_fresh
    = Ok ((true, None), cs, set_singletonFlag true ex_loaded) ∧
  length (recs ex_loaded) = 1%nat ∧
  ¬ once_per_record ex_loaded cs.
Proof.
  cbv zeta. split; [by vm_compute |]. split; [by vm_compute |].
  split; [done |].
  intros H. specialize (H 0%nat (ex_intro _ ex_u1 eq_refl)).
  vm_compute in H. discriminate H.
Qed.

(** C3, amended.  When [Iterate], or the iteration phase of [LoadAndIterate],
    runs to success with a handler registered, the handler is invoked exactly
    once per key of the mapping: for every record, as many times as there are
    keys that resolve to it, each time on that record's payload. *)
Theorem Iterate_calls_once_per_key :
  (∀ cacheName b d f,
     store_ok d → singletonFlag d = false → reciteratefn d = Some f →
     ∃ cs, Iterate cacheName b d = Ok ((true, None), cs, set_singletonFlag true d) ∧
           length cs = size (cache d) ∧
           (∀ l, callsOn l cs = length (keysOf l d)) ∧
           (∀ l a, (l, a) ∈ cs → ∃ r, recs d !! l = Some r ∧ a = PDataRec r)) ∧
  (∀ b1 b2 d g recList f,
     store_ok d → singletonFlag d = false →
     loadfn d = Some g → g () = (true, recList) → reciteratefn d = Some f →
     let d1 := loaded recList d in
     ∃ cs, LoadAndIterate b1 b2 d = Ok ((true, None), cs, set_singletonFlag true d1) ∧
           length cs = size (cache d1) ∧
           (∀ l, callsOn l cs = length (keysOf l d1)) ∧
           (∀ l a, (l, a) ∈ cs → ∃ r, recs d1 !! l = Some r ∧ a = PDataRec r)).
Proof.
  split.
  - intros cacheName b d f Hd Hflag Hf.
    destruct (visit_store d Hd) as (cs & Hcs & Hrest).
    exists cs. split; [| done].
    unfold Iterate. by rewrite Hflag, Hf, Hcs.
  - intros b1 b2 d g recList f Hd Hflag Hg Hres Hf d1.
    destruct (visit_store d1 (store_ok_loaded recList d Hd)) as (cs & Hcs & Hrest).
    exists cs. split; [| done].
    unfold LoadAndIterate. rewrite Hflag, Hg, Hres.
    fold d1. replace (reciteratefn d1) with (Some f)
      by (unfold d1; by rewrite reciteratefn_loaded).
    by rewrite Hcs.
Qed.

(** On the loaded store of the counterexample the handler runs twice, which
    is the number of keys of its only record. *)
Lemma Iterate_calls_once_per_key_witness :
  ∃ cs, Iterate "users" true ex_loaded
        = Ok ((true, None), cs, set_singletonFlag true ex_loaded) ∧
        length cs = 2%nat.
Proof.
  destruct Iterate_calls_once_per_key as [H _].
  destruct (H "users"%string true ex_loaded ex_handler) as (cs & E & Hlen & _).
  - apply store_okb_sound. vm_compute. reflexivity.
  - reflexivity.
  - reflexivity.
  - exists cs. split; [exact E |]. rewrite Hlen. vm_compute. reflexivity.
Defined.

(** ** The record counter *)

Lemma cnt_insertRec keyList pRec d : cnt (insertRec keyList pRec d) = int_add (cnt d) 1.
Proof. done. Qed.

(** Calls that leave both the counter and the mapping alone. *)
Lemma frame_lockRecOf k d l d' :
  lockRecOf k d = Ok (l, d') → cnt d' = cnt d ∧ cache d' = cache d.
Proof.
  unfold lockRecOf. intros H. destruct (cache d !! k); [| done].
  res_inv H. by injection H as _ <-.
Qed.

Lemma frame_lockFirst keyList d l d' :
  lockFirst keyList d = Ok (l, d') → cnt d' = cnt d ∧ cache d' = cache d.
Proof. destruct keyList; [done |]. apply frame_lockRecOf. Qed.






(** Calls that write the counter or the mapping. *)
Lemma effect_AddRec keyList pRec flag d n e d' :
  AddRec keyList pRec flag d = ((n, e), d') →
  if noError e
  then cnt d' = int_add (cnt d) 1 ∧
       cache d' = mapKeys (cache d) keyList (length (recs d))
  else d' = d.
Proof.
  unfold AddRec. intros H. destruct pRec; [| by injection H as _ <- <-].
  destruct (if flag then _ else _); by injection H as _ <- <-.
Qed.

Lemma effect_ForceAddRec keyList pRec d n e d' :
  ForceAddRec keyList pRec d = ((n, e), d') →
  if noError e
  then cnt d' = int_add (cnt d) 1 ∧
       cache d' = mapKeys (displace (cache d) 0 keyList) keyList (length (recs d))
  else d' = d.
Proof. unfold ForceAddRec. intros H. destruct pRec; by injection H as _ <- <-. Qed.

Lemma effect_AddAndGetRec keyList pRec flag d n p e d' :
  AddAndGetRec keyList pRec flag d = Ok ((n, p, e), d') →
  if noError e
  then cnt d' = int_add (cnt d) 1 ∧
       cache d' = mapKeys (cache d) keyList (length (recs d))
  else d' = d.
Proof.
  unfold AddAndGetRec. intros H. destruct pRec; [| by injection H as _ _ <- <-].
  destruct (if flag then _ else _); [by injection H as _ _ <- <- |].
  res_inv H. destruct a as [l d1]. injection H as _ _ <- <-.
  by destruct (frame_lockFirst _ _ _ _ E) as [-> ->].
Qed.

Lemma effect_ForceAddAndGetRec keyList pRec d n p e d' :
  ForceAddAndGetRec keyList pRec d = Ok ((n, p, e), d') →
  if noError e
  then cnt d' = int_add (cnt d) 1 ∧
       cache d' = mapKeys (displace (cache d) 0 keyList) keyList (length (recs d))
  else d' = d.
Proof.
  unfold ForceAddAndGetRec. intros H. destruct pRec; [| by injection H as _ _ <- <-].
  res_inv H. destruct a as [l d1]. injection H as _ _ <- <-.
  by destruct (frame_lockFirst _ _ _ _ E) as [-> ->].
Qed.



Lemma lockAt_inv (l : loc) (h h1 : list Rec) :
  lockAt l h = Ok h1 →
  ∃ r m, h !! l = Some r ∧ pRecLock r = Some m ∧ isLocked m = false.
Proof.
  unfold lockAt. intros H.
  destruct (h !! l) as [r|]; [| done].
  destruct (pRecLock r) as [m|] eqn:Hm; [| done].
  exists r, m. split; [done |]. split; [done |].
  unfold Mutex_Lock in H. by destruct (isLocked m).
Qed.

Lemma effect_DeleteRec key d n e d' :
  DeleteRec key d = Ok ((n, e), d') →
  if noError e
  then cnt d' = int_sub (cnt d) 1 ∧
       ∃ l r, cache d !! key = Some l ∧ recs d !! l = Some r ∧
              cache d' = deleteKeys (cache d) (KeyList r)
  else d' = d.
Proof.
  unfold DeleteRec. intros H.
  destruct (cache d !! key) as [l|]; [| by injection H as _ <- <-].
  destruct (lockAt l (recs d)) as [h1| |] eqn:EL; [| done | done].
  destruct (lockAt_inv _ _ _ EL) as (r & m & Hr & Hm & Hfree).
  destruct (lockAt_unlockAt _ _ _ _ Hr Hm Hfree) as (h1' & EL' & EU & _).
  assert (h1' = h1) as -> by congruence.
  cbn [mbind res_bind] in H. rewrite EU in H. cbn [mbind res_bind] in H.
  unfold keyListAt in H. rewrite Hr in H. cbn [mbind res_bind] in H.
  injection H as _ <- <-. cbn [noError cnt cache].
  split; [done |]. by exists l, r.
Qed.





(** *** Records in the store never outnumber adds minus deletes *)










(** * Further properties of the API *)

(** ** Lookups that lock *)

Lemma lockAt_free (h : list Rec) (l : loc) (r : Rec) (m : Mutex) :
  h !! l = Some r → pRecLock r = Some m → isLocked m = false →
  lockAt l h = Ok (<[l := set_pRecLock (Some (mkMutex (state m + 1))) r]> h).
Proof.
  intros Hr Hm Hfree. unfold lockAt. rewrite Hr, Hm.
  by destruct (Mutex_Lock_free m Hfree) as [-> _].
Qed.

Lemma lockAt_heldAt (l : loc) (h : list Rec) : heldAt l h → lockAt l h = Block.
Proof. intros (r & m & Hr & Hm & Hheld). by eapply lockAt_held. Qed.

Lemma lockAt_result (l : loc) (h h1 : list Rec) :
  lockAt l h = Ok h1 →
  ∃ r m, h !! l = Some r ∧ pRecLock r = Some m ∧ isLocked m = false ∧
         h1 = <[l := set_pRecLock (Some (mkMutex (state m + 1))) r]> h ∧
         unlockAt l h1 = Ok h.
Proof.
  intros H. destruct (lockAt_inv _ _ _ H) as (r & m & Hr & Hm & Hfree).
  exists r, m. rewrite (lockAt_free _ _ _ _ Hr Hm Hfree) in H. injection H as <-.
  destruct (lockAt_unlockAt _ _ _ _ Hr Hm Hfree) as (h1 & HL & HU & _).
  rewrite (lockAt_free _ _ _ _ Hr Hm Hfree) in HL. injection HL as <-.
  by repeat split.
Qed.

Lemma lockAt_heldAt_after (l : loc) (h h1 : list Rec) : lockAt l h = Ok h1 → heldAt l h1.
Proof.
  intros H. destruct (lockAt_result _ _ _ H) as (r & m & Hr & Hm & Hfree & -> & _).
  exists (set_pRecLock (Some (mkMutex (state m + 1))) r), (mkMutex (state m + 1)).
  split; [apply list_lookup_insert_eq; by eapply lookup_lt_Some |].
  split; [done |]. by destruct (Mutex_Lock_free m Hfree).
Qed.

(** On a held record, the tolerant [RecUnlock] does what a plain unlock does. *)
Lemma RecUnlockAt_held (l : loc) (h : list Rec) :
  heldAt l h → RecUnlockAt l h = unlockAt l h.
Proof.
  intros (r & m & Hr & Hm & Hheld).
  unfold RecUnlockAt, unlockAt, RecUnlock. rewrite Hr, Hm, Hheld.
  by destruct (Mutex_Unlock m).
Qed.

Lemma RecUnlockAt_after_lockAt (l : loc) (h h1 : list Rec) :
  lockAt l h = Ok h1 → RecUnlockAt l h1 = Ok h.
Proof.
  intros EL. destruct (lockAt_result _ _ _ EL) as (r & m & _ & _ & _ & _ & HU).
  by rewrite (RecUnlockAt_held _ _ (lockAt_heldAt_after _ _ _ EL)).
Qed.

Lemma GetRec_free (key : Key) (d : DataCache) (l : loc) (r : Rec) (m : Mutex) :
  cache d !! key = Some l → recs d !! l = Some r →
  pRecLock r = Some m → isLocked m = false →
  GetRec key d
  = Ok ((true, Some l),
        set_recs (<[l := set_pRecLock (Some (mkMutex (state m + 1))) r]> (recs d)) d).
Proof.
  intros Hl Hr Hm Hfree. unfold GetRec.
  by rewrite Hl, (lockAt_free _ _ _ _ Hr Hm Hfree).
Qed.

Lemma GetDataRec_free (key : Key) (d : DataCache) (l : loc) (r : Rec) (m : Mutex) :
  cache d !! key = Some l → recs d !! l = Some r →
  pRecLock r = Some m → isLocked m = false →
  GetDataRec key d = Ok ((true, PDataRec r), d).
Proof.
  intros Hl Hr Hm Hfree. unfold GetDataRec. rewrite Hl.
  destruct (lockAt_unlockAt _ _ _ _ Hr Hm Hfree) as (h1 & -> & HU & Hl1).
  cbn [mbind res_bind]. rewrite Hl1, HU. cbn [mbind res_bind PDataRec set_pRecLock].
  by destruct d.
Qed.

Lemma insertRec_new (keyList : list Key) (pRec : iface) (d : DataCache) :
  recs (insertRec keyList pRec d) !! length (recs d) = Some (newRec keyList pRec).
Proof. cbn [insertRec recs]. rewrite lookup_app_r by done. by rewrite Nat.sub_diag. Qed.

Lemma AddRec_success (keyList : list Key) (p : Z) (flag : bool) (d : DataCache) :
  (flag = true → ∀ k, k ∈ keyList → cache d !! k = None) →
  AddRec keyList (Some p) flag d
  = ((int_add (cnt d) 1, None), insertRec keyList (Some p) d).
Proof.
  intros Hfresh. unfold AddRec. destruct flag; [| done].
  by rewrite (proj2 (firstExisting_None _ _) (Hfresh eq_refl)).
Qed.

(** X5 ([GetRec], [GetRecWOLock]).  A lookup of an absent key answers
    [(false, nil)] and leaves the store alone.  A lookup of a present key
    whose record is free answers [true] with the pointer the key resolves to,
    and the only change is that this record's mutex is now held: mapping,
    counter, one-shot flag, every other record and the data of the record
    itself are as before.  While the record is held the lookup does not
    return. *)
Theorem GetRec_returns_locked (key : Key) (d : DataCache) :
  (cache d !! key = None → GetRec key d = Ok ((false, None), d)) ∧
  (∀ l, cache d !! key = Some l → heldAt l (recs d) → GetRec key d = Block) ∧
  (∀ l r m, cache d !! key = Some l → recs d !! l = Some r →
     pRecLock r = Some m → isLocked m = false →
     ∃ d' r', GetRec key d = Ok ((true, Some l), d') ∧
              GetRecWOLock key d = Ok ((true, Some l), d') ∧
              recs d' !! l = Some r' ∧ same_data r r' ∧ heldAt l (recs d') ∧
              (∀ l', l' ≠ l → recs d' !! l' = recs d !! l') ∧
              cache d' = cache d ∧ cnt d' = cnt d ∧
              singletonFlag d' = singletonFlag d).
Proof.
  split; [unfold GetRec; by intros -> |]. split.
  - intros l Hl Hheld. unfold GetRec. by rewrite Hl, (lockAt_heldAt _ _ Hheld).
  - intros l r m Hl Hr Hm Hfree.
    pose proof (lockAt_free _ _ _ _ Hr Hm Hfree) as HL.
    unfold GetRecWOLock. rewrite (GetRec_free key d l r m Hl Hr Hm Hfree).
    eexists _, (set_pRecLock (Some (mkMutex (state m + 1))) r).
    split; [reflexivity |]. split; [reflexivity |]. cbn [recs cache cnt set_recs].
    split; [apply list_lookup_insert_eq; by eapply lookup_lt_Some |].
    split; [done |].
    split; [by eapply lockAt_heldAt_after |].
    split; [intros l' Hne; by apply list_lookup_insert_ne |]. done.
Qed.

Lemma GetRec_returns_locked_witness :
  ∃ d', GetRec ex_e1 ex_one = Ok ((true, Some 0%nat), d') ∧ heldAt 0%nat (recs d').
Proof.
  destruct (GetRec_returns_locked ex_e1 ex_one) as (_ & _ & H).
  destruct (H 0%nat (newRec [ex_u1; ex_e1] (Some 1)) (mkMutex 0)
              eq_refl eq_refl eq_refl eq_refl) as (d' & r' & E & _ & _ & _ & Hh & _).
  exists d'. by split.
Defined.

(** X6 ([GetRec] then [RecUnlock]).  Whenever a lookup hands out a record,
    unlocking that record gives back the store the lookup started from. *)
Theorem GetRec_RecUnlock_restores (key : Key) (d d' : DataCache) (l : loc) :
  GetRec key d = Ok ((true, Some l), d') →
  exec (OpRecUnlock l) d' = Ok (true, d).
Proof.
  unfold GetRec. intros H. destruct (cache d !! key) as [l0|]; [| done].
  destruct (lockAt l0 (recs d)) as [h1| |] eqn:EL; [| done | done].
  cbn [mbind res_bind] in H. injection H as <- <-.
  cbn [exec recs set_recs]. rewrite (RecUnlockAt_after_lockAt _ _ _ EL).
  cbn [mbind res_bind]. by destruct d.
Qed.

Lemma GetRec_RecUnlock_restores_witness :
  ∃ d', GetRec ex_u1 ex_one = Ok ((true, Some 0%nat), d') ∧
        exec (OpRecUnlock 0%nat) d' = Ok (true, ex_one).
Proof.
  eexists. split; [reflexivity |].
  apply (GetRec_RecUnlock_restores ex_u1 ex_one). reflexivity.
Defined.

(** X7 ([GetDataRec], [GetDataRecWOLock]).  Reading the payload of an absent
    key answers [(false, nil)]; of a present key with a free record it
    answers [true] with that record's payload.  Either way the store is left
    exactly as it was, the record lock being taken and released inside the
    call.  While the record is held the call does not return. *)
Theorem GetDataRec_reads_payload (key : Key) (d : DataCache) :
  (cache d !! key = None → GetDataRec key d = Ok ((false, None), d)) ∧
  (∀ l, cache d !! key = Some l → heldAt l (recs d) → GetDataRec key d = Block) ∧
  (∀ l r m, cache d !! key = Some l → recs d !! l = Some r →
     pRecLock r = Some m → isLocked m = false →
     GetDataRec key d = Ok ((true, PDataRec r), d) ∧
     GetDataRecWOLock key d = Ok ((true, PDataRec r), d)).
Proof.
  split; [unfold GetDataRec; by intros -> |]. split.
  - intros l Hl Hheld. unfold GetDataRec. by rewrite Hl, (lockAt_heldAt _ _ Hheld).
  - intros l r m Hl Hr Hm Hfree. unfold GetDataRecWOLock.
    by rewrite (GetDataRec_free key d l r m Hl Hr Hm Hfree).
Qed.

Lemma GetDataRec_reads_payload_witness :
  GetDataRec ex_e1 ex_one = Ok ((true, Some 1), ex_one).
Proof.
  destruct (GetDataRec_reads_payload ex_e1 ex_one) as (_ & _ & H).
  by destruct (H 0%nat (newRec [ex_u1; ex_e1] (Some 1)) (mkMutex 0)
                 eq_refl eq_refl eq_refl eq_refl) as [E _].
Defined.

(** ** Toggling the active flag *)

Lemma list_alter_insert_eq (f : Rec → Rec) (h : list Rec) (l : loc) (x : Rec) :
  alter f l (<[l := x]> h) = <[l := f x]> h.
Proof.
  apply list_eq. intros i. destruct (decide (l = i)) as [<- | Hne].
  - rewrite list_lookup_alter_eq.
    destruct (decide (l < length h)%nat) as [Hlt | Hge].
    + by rewrite !list_lookup_insert_eq.
    + rewrite !list_insert_ge by lia. by rewrite lookup_ge_None_2 by lia.
  - by rewrite list_lookup_alter_ne, !list_lookup_insert_ne.
Qed.

(** X8 ([UpdateRecState], [UpdateRecStateWOLock]).  On an absent key the call
    answers [false] and changes nothing.  On a present key with a free record
    it answers [true] and the store afterwards differs in one place only: the
    record the key resolves to has its active flag set to the requested
    value, so the new state is seen through every alias of that record, and
    its lock is free again.  While the record is held the call does not
    return. *)
Theorem UpdateRecState_sets_flag (key : Key) (recState : bool) (d : DataCache) :
  (cache d !! key = None → UpdateRecState key recState d = Ok (false, d)) ∧
  (∀ l, cache d !! key = Some l → heldAt l (recs d) →
     UpdateRecState key recState d = Block) ∧
  (∀ l r m, cache d !! key = Some l → recs d !! l = Some r →
     pRecLock r = Some m → isLocked m = false →
     UpdateRecState key recState d
       = Ok (true, set_recs (<[l := set_isActive recState r]> (recs d)) d) ∧
     UpdateRecStateWOLock key recState d = UpdateRecState key recState d).
Proof.
  unfold UpdateRecStateWOLock, UpdateRecState. split; [by intros -> |]. split.
  - intros l -> Hheld. by rewrite (lockAt_heldAt _ _ Hheld).
  - intros l r m -> Hr Hm Hfree. split; [| done].
    pose proof (lookup_lt_Some _ _ _ Hr) as Hlt.
    rewrite (lockAt_free _ _ _ _ Hr Hm Hfree). cbn [mbind res_bind].
    rewrite list_alter_insert_eq. unfold unlockAt.
    rewrite list_lookup_insert_eq by done.
    cbn [pRecLock set_isActive set_pRecLock].
    destruct (Mutex_Lock_free m Hfree) as [_ Hheld].
    destruct (Mutex_Unlock_held _ Hheld) as [-> _]. cbn [mbind res_bind state].
    rewrite list_insert_insert_eq. do 3 f_equal.
    replace (state m + 1 - 1) with (state m) by lia.
    clear -Hm. destruct r, m; simpl in *. by rewrite Hm.
Qed.

Lemma UpdateRecState_sets_flag_witness :
  ∃ d', UpdateRecState ex_e1 false ex_one = Ok (true, d') ∧
        (isActive <$> recs d' !! 0%nat) = Some false ∧
        cache d' !! ex_u1 = Some 0%nat.
Proof.
  destruct (UpdateRecState_sets_flag ex_e1 false ex_one) as (_ & _ & H).
  destruct (H 0%nat (newRec [ex_u1; ex_e1] (Some 1)) (mkMutex 0)
              eq_refl eq_refl eq_refl eq_refl) as [E _].
  eexists. split; [exact E |]. by split.
Defined.

(** ** Record locks are not reentrant *)

Lemma heldAt_not_free (l : loc) (h : list Rec) (r : Rec) :
  heldAt l h → h !! l = Some r → ¬ (∀ m, pRecLock r = Some m → isLocked m = false).
Proof.
  intros (r' & m & Hr' & Hm & Hheld) Hr Hfree. assert (r' = r) as -> by congruence.
  specialize (Hfree m Hm). congruence.
Qed.

Lemma clearEntries_held (entries : list (Key * loc)) (d : DataCache) (k : Key) (l : loc) :
  (k, l) ∈ entries → heldAt l (recs d) →
  (∀ k' l', (k', l') ∈ entries → ∃ r m, recs d !! l' = Some r ∧ pRecLock r = Some m) →
  clearEntries entries d = Block.
Proof.
  revert d. induction entries as [|[k0 l0] rest IH]; intros d Hin Hheld Hall.
  { by apply elem_of_nil in Hin. }
  destruct (Hall k0 l0 ltac:(left)) as (r0 & m0 & Hr0 & Hm0).
  cbn [clearEntries]. destruct (isLocked m0) eqn:E0.
  - unfold lockIfAny. rewrite Hr0, Hm0.
    by rewrite (lockAt_held _ _ _ _ Hr0 Hm0 E0).
  - destruct (lockIfAny_unlockIfAny (recs d) l0 r0 Hr0) as (h1 & -> & HU).
    { intros m Hm. congruence. }
    cbn [mbind res_bind]. rewrite HU. cbn [mbind res_bind].
    apply elem_of_cons in Hin as [[= -> ->] | Hin].
    { destruct Hheld as (r & m & Hr & Hm & Hh). congruence. }
    apply IH; [done | by destruct d |].
    intros k' l' Hin'. destruct d. apply (Hall k' l'). by right.
Qed.

Lemma RecLockAt_RecUnlockAt (h : list Rec) (l : loc) (r : Rec) (m : Mutex) :
  h !! l = Some r → pRecLock r = Some m → isLocked m = false →
  ∃ h1, RecLockAt l h = Ok h1 ∧ RecUnlockAt l h1 = Ok h ∧
        (PDataRec <$> h1 !! l) = Some (PDataRec r).
Proof.
  intros Hr Hm Hfree.
  destruct (lockAt_unlockAt _ _ _ _ Hr Hm Hfree) as (h1 & HL & HU & Hl1).
  exists h1. split.
  - rewrite <- HL. unfold RecLockAt, lockAt, RecLock. rewrite Hr, Hm.
    by destruct (Mutex_Lock m).
  - split; [| by rewrite Hl1].
    rewrite <- HU. apply RecUnlockAt_held. by eapply lockAt_heldAt_after.
Qed.

Lemma auxVisit_held (entries : list (Key * loc)) (h : list Rec) (k : Key) (l : loc) :
  (k, l) ∈ entries → heldAt l h →
  (∀ k' l', (k', l') ∈ entries → ∃ r m, h !! l' = Some r ∧ pRecLock r = Some m) →
  auxVisit entries h = Block.
Proof.
  induction entries as [|[k0 l0] rest IH]; intros Hin Hheld Hall.
  { by apply elem_of_nil in Hin. }
  destruct (Hall k0 l0 ltac:(left)) as (r0 & m0 & Hr0 & Hm0).
  cbn [auxVisit]. destruct (isLocked m0) eqn:E0.
  - unfold RecLockAt, RecLock. rewrite Hr0, Hm0.
    by rewrite (Mutex_Lock_held _ E0).
  - destruct (RecLockAt_RecUnlockAt h l0 r0 m0 Hr0 Hm0 E0) as (h1 & -> & HU & Hp).
    cbn [mbind res_bind]. destruct (h1 !! l0) as [r1|]; [| done].
    rewrite HU. cbn [mbind res_bind].
    apply elem_of_cons in Hin as [[= -> ->] | Hin].
    { destruct Hheld as (r & m & Hr & Hm & Hh). congruence. }
    rewrite IH; [done | done | done |].
    intros k' l' Hin'. apply (Hall k' l'). by right.
Qed.

(** X9 (non-reentrant record lock).  While the record a key resolves to is
    held, for instance by the caller of an earlier [GetRec], every call that
    has to take that record's lock parks: [GetRec], [GetDataRec],
    [UpdateRecState], [DeleteRec], [DeleteRecWOLock] and [ReAddAndGetRec]
    through any key of that record, and the two whole-store traversals that
    lock records, [DeleteCache] and [AuxIterate]. *)
Theorem held_record_parks_callers (key : Key) (l : loc) (d : DataCache) :
  cache d !! key = Some l → heldAt l (recs d) →
  GetRec key d = Block ∧
  GetDataRec key d = Block ∧
  (∀ b, UpdateRecState key b d = Block) ∧
  DeleteRec key d = Block ∧
  DeleteRecWOLock key d = Block ∧
  (∀ newKey, ReAddAndGetRec key newKey d = Block) ∧
  (store_ok d → DeleteCache d = Block) ∧
  (store_ok d → ∀ n f, AuxIterate n (Some f) d = Block).
Proof.
  intros Hk Hheld. pose proof (lockAt_heldAt _ _ Hheld) as HL.
  assert (∀ k' l', (k', l') ∈ map_to_list (cache d) → store_ok d →
            ∃ r m, recs d !! l' = Some r ∧ pRecLock r = Some m) as Hall.
  { intros k' l' Hin%elem_of_map_to_list Hd.
    destruct (Hd k' l' Hin) as (r & Hr & _ & [m Hm]). eauto. }
  split; [unfold GetRec; by rewrite Hk, HL |].
  split; [unfold GetDataRec; by rewrite Hk, HL |].
  split; [intros b; unfold UpdateRecState; by rewrite Hk, HL |].
  split; [unfold DeleteRec; by rewrite Hk, HL |].
  split; [unfold DeleteRecWOLock; by rewrite Hk, HL |].
  split.
  - intros newKey. unfold ReAddAndGetRec, lockRecOf, alias. rewrite Hk.
    cbn [cache recs set_cache set_recs]. rewrite lookup_insert_eq.
    destruct Hheld as (r & m & Hr & Hm & Hh).
    unfold lockAt. rewrite list_lookup_alter_eq, Hr. cbn [fmap option_fmap option_map].
    cbn [pRecLock set_KeyList]. rewrite Hm. by rewrite (Mutex_Lock_held _ Hh).
  - split.
    + intros Hd. unfold DeleteCache.
      rewrite (clearEntries_held _ d key l); [done | by apply elem_of_map_to_list | done |].
      intros k' l' Hin. by apply (Hall k' l').
    + intros Hd n f. unfold AuxIterate.
      rewrite (auxVisit_held _ (recs d) key l); [done | by apply elem_of_map_to_list | done |].
      intros k' l' Hin. by apply (Hall k' l').
Qed.

(** After [GetRec("u1")], a delete through the other alias parks. *)
Lemma held_record_parks_callers_witness :
  ∃ d', GetRec ex_u1 ex_one = Ok ((true, Some 0%nat), d') ∧ DeleteRec ex_e1 d' = Block.
Proof.
  eexists. split; [reflexivity |].
  refine (proj1 (proj2 (proj2 (proj2 (held_record_parks_callers ex_e1 0%nat _ _ _))))).
  - reflexivity.
  - eexists _, _. split; [reflexivity |]. split; reflexivity.
Defined.

(** ** What a successful add leaves behind *)

(** X1 ([AddRec], [AddRecWOLock]).  With a non-nil payload, and either the
    existence check off or no supplied key mapped, the add succeeds and
    returns the new count.  One record is appended to the arena: active, its
    lock free, carrying the payload and the supplied key list.  Every
    supplied key resolves to it, also a key that resolved to an older record
    before; every other key resolves as before, and no existing record is
    touched. *)
Theorem AddRec_maps_supplied (keyList : list Key) (p : Z) (flag : bool) (d : DataCache) :
  (flag = true → ∀ k, k ∈ keyList → cache d !! k = None) →
  ∃ d', AddRec keyList (Some p) flag d = ((int_add (cnt d) 1, None), d') ∧
        AddRecWOLock keyList (Some p) flag d = ((int_add (cnt d) 1, None), d') ∧
        recs d' = recs d ++ [mkRec keyList (Some p) true 0 (Some (mkMutex 0)) None] ∧
        (∀ k, k ∈ keyList → cache d' !! k = Some (length (recs d))) ∧
        (∀ k, k ∉ keyList → cache d' !! k = cache d !! k) ∧
        (∀ l r, recs d !! l = Some r → recs d' !! l = Some r) ∧
        cnt d' = int_add (cnt d) 1.
Proof.
  intros Hfresh. exists (insertRec keyList (Some p) d).
  pose proof (AddRec_success keyList p flag d Hfresh) as E.
  split; [done |]. split; [done |]. split; [done |].
  split; [intros k Hk; by apply mapKeys_lookup_in |].
  split; [intros k Hk; by apply mapKeys_lookup_notin |].
  split; [| done]. intros l r Hr. by apply lookup_app_l_Some.
Qed.

(** A second add without the check takes [u1] over; [e1] stays with the first record. *)
Lemma AddRec_maps_supplied_witness :
  ∃ d', AddRec [ex_u1] (Some 2) false ex_one = ((2, None), d') ∧
        cache d' !! ex_u1 = Some 1%nat ∧ cache d' !! ex_e1 = Some 0%nat.
Proof.
  destruct (AddRec_maps_supplied [ex_u1] 2 false ex_one) as (d' & E & _ & _ & Hin & Hout & _).
  - intros H. discriminate H.
  - exists d'. split; [exact E |]. split.
    + apply Hin. left.
    + rewrite Hout; [reflexivity |].
      intros H%list_elem_of_singleton. discriminate H.
Defined.

(** X2 (edge inputs of the adds).  Each of the eight adds refuses a nil
    payload with the null error and returns the store untouched, whatever
    the keys.  With an empty key list and a payload, [AddRec] and
    [ForceAddRec] still succeed: the mapping is unchanged, a record no key
    leads to is allocated and the counter goes up by one; [AddAndGetRec] and
    [ForceAddAndGetRec] panic on their [keyList[0]]. *)
Theorem adds_on_edge_inputs (keyList : list Key) (flag : bool) (p : Z) (d : DataCache) :
  (AddRec keyList None flag d = ((-1, Some ErrNullCacheOrPayload), d) ∧
   AddRecWOLock keyList None flag d = ((-1, Some ErrNullCacheOrPayload), d) ∧
   ForceAddRec keyList None d = ((-1, Some ErrNullCacheOrPayload), d) ∧
   ForceAddRecWOLock keyList None d = ((-1, Some ErrNullCacheOrPayload), d) ∧
   AddAndGetRec keyList None flag d = Ok ((-1, None, Some ErrNullCacheOrPayload), d) ∧
   AddAndGetRecWOLock keyList None flag d = Ok ((-1, None, Some ErrNullCacheOrPayload), d) ∧
   ForceAddAndGetRec keyList None d = Ok ((-1, None, Some ErrNullCacheOrPayload), d) ∧
   ForceAddAndGetRecWOLock keyList None d = Ok ((-1, None, Some ErrNullCacheOrPayload), d)) ∧
  (∃ d', AddRec [] (Some p) flag d = ((int_add (cnt d) 1, None), d') ∧
         ForceAddRec [] (Some p) d = ((int_add (cnt d) 1, None), d') ∧
         cache d' = cache d ∧ length (recs d') = S (length (recs d)) ∧
         cnt d' = int_add (cnt d) 1) ∧
  AddAndGetRec [] (Some p) flag d = Panic ∧
  ForceAddAndGetRec [] (Some p) d = Panic.
Proof.
  split; [by repeat split |]. split.
  - exists (insertRec [] (Some p) d). split; [by destruct flag |].
    split; [unfold ForceAddRec; by destruct d |].
    split; [done |]. split; [| done].
    cbn [insertRec recs]. rewrite length_app. simpl. lia.
  - split; [by destruct flag | done].
Qed.

(** X3 (add, then look up).  After a successful [AddRec], each supplied key
    exists, [GetDataRec] through it returns the payload that was added, and
    [GetRec] through it returns the new record. *)
Theorem AddRec_then_lookup (keyList : list Key) (p : Z) (flag : bool) (d d' : DataCache)
    (n : Z) (k : Key) :
  AddRec keyList (Some p) flag d = ((n, None), d') → k ∈ keyList →
  DoesKeyExist k d' = true ∧
  GetDataRec k d' = Ok ((true, Some p), d') ∧
  ∃ d'', GetRec k d' = Ok ((true, Some (length (recs d))), d'').
Proof.
  intros H Hk. unfold AddRec in H.
  destruct (if flag then _ else _); [done |]. injection H as _ <-.
  pose proof (mapKeys_lookup_in (cache d) keyList (length (recs d)) k Hk) as Hl.
  pose proof (insertRec_new keyList (Some p) d) as Hr.
  split; [unfold DoesKeyExist; cbn [insertRec cache]; by rewrite Hl |].
  split.
  - by rewrite (GetDataRec_free k (insertRec keyList (Some p) d) _ _ (mkMutex 0)
                  Hl Hr eq_refl eq_refl).
  - rewrite (GetRec_free k (insertRec keyList (Some p) d) _ _ (mkMutex 0)
               Hl Hr eq_refl eq_refl). eauto.
Qed.

Lemma AddRec_then_lookup_witness :
  GetDataRec ex_e1 ex_one = Ok ((true, Some 1), ex_one).
Proof.
  refine (proj1 (proj2 (AddRec_then_lookup [ex_u1; ex_e1] 1 true (Create None None)
                          ex_one 1 ex_e1 _ _))).
  - reflexivity.
  - right. left.
Defined.

(** ** The add-and-get family *)

Lemma lockRecOf_GetRec (k : Key) (d : DataCache) :
  is_Some (cache d !! k) →
  lockRecOf k d = '((_, o), d') ← GetRec k d;
                  match o with Some l => Ok (l, d') | None => Panic end.
Proof.
  intros [l Hl]. unfold lockRecOf, GetRec. rewrite Hl.
  by destruct (lockAt l (recs d)).
Qed.

(** X4 (an add-and-get is the add followed by [GetRec]).  On a non-empty key
    list, [AddAndGetRec] does what [AddRec] does and, when that succeeds,
    what [GetRec] on the first supplied key does next; likewise
    [ForceAddAndGetRec] after [ForceAddRec], and [ReAddAndGetRec] after
    [ReAddRec] with [GetRec] on the new key.  A failed first step is passed
    on with its error and no record. *)
Theorem AndGet_is_add_then_GetRec (k0 : Key) (ks : list Key) (pRec : iface) (flag : bool)
    (originalKey newKey : Key) (d : DataCache) :
  AddAndGetRec (k0 :: ks) pRec flag d
    = (let '((n, e), d1) := AddRec (k0 :: ks) pRec flag d in
       match e with
       | Some _ => Ok ((n, None, e), d1)
       | None => '((_, o), d2) ← GetRec k0 d1; Ok ((n, o, None), d2)
       end) ∧
  ForceAddAndGetRec (k0 :: ks) pRec d
    = (let '((n, e), d1) := ForceAddRec (k0 :: ks) pRec d in
       match e with
       | Some _ => Ok ((n, None, e), d1)
       | None => '((_, o), d2) ← GetRec k0 d1; Ok ((n, o, None), d2)
       end) ∧
  ReAddAndGetRec originalKey newKey d
    = (let '((n, e), d1) := ReAddRec originalKey newKey d in
       match e with
       | Some _ => Ok ((n, None, e), d1)
       | None => '((_, o), d2) ← GetRec newKey d1; Ok ((n, o, None), d2)
       end).
Proof.
  assert (∀ k d1, is_Some (cache d1 !! k) →
            ('(l, d') ← lockRecOf k d1; Ok ((cnt d', Some l, @None error), d'))
            = ('((_, o), d2) ← GetRec k d1; Ok ((cnt d1, o, None), d2))) as Hstep.
  { intros k d1 [l Hl]. unfold lockRecOf, GetRec. rewrite Hl.
    by destruct (lockAt l (recs d1)). }
  assert (∀ c l, is_Some (mapKeys c (k0 :: ks) l !! k0)) as Hfirst.
  { intros c l. exists l. apply mapKeys_lookup_in. left. }
  split; [| split].
  - unfold AddAndGetRec, AddRec. destruct pRec as [p|]; [| done].
    destruct (if flag then _ else _); [done |].
    cbn [lockFirst]. apply Hstep, Hfirst.
  - unfold ForceAddAndGetRec, ForceAddRec. destruct pRec as [p|]; [| done].
    cbn [lockFirst]. apply Hstep, Hfirst.
  - unfold ReAddAndGetRec, ReAddRec.
    destruct (cache d !! originalKey) as [l|]; [| done].
    apply Hstep. exists l. apply lookup_insert_eq.
Qed.

(** X12 ([AddAndGetRec], [AddAndGetRecWOLock]).  With a payload, a non-empty
    key list and the existence check passed or off, the add-and-get never
    parks: the record it hands back is the one just allocated, it is returned
    held, every supplied key resolves to it, and unlocking it leaves exactly
    the store [AddRec] leaves on the same arguments. *)
Theorem AddAndGetRec_returns_held (k0 : Key) (ks : list Key) (p : Z) (flag : bool)
    (d : DataCache) :
  (flag = true → ∀ k, k ∈ k0 :: ks → cache d !! k = None) →
  ∃ d', AddAndGetRec (k0 :: ks) (Some p) flag d
          = Ok ((int_add (cnt d) 1, Some (length (recs d)), None), d') ∧
        AddAndGetRecWOLock (k0 :: ks) (Some p) flag d
          = Ok ((int_add (cnt d) 1, Some (length (recs d)), None), d') ∧
        heldAt (length (recs d)) (recs d') ∧
        (∀ k, k ∈ k0 :: ks → cache d' !! k = Some (length (recs d))) ∧
        exec (OpRecUnlock (length (recs d))) d'
          = Ok (true, (AddRec (k0 :: ks) (Some p) flag d).2).
Proof.
  intros Hfresh. rewrite (AddRec_success _ _ _ _ Hfresh). cbn [snd].
  set (d1 := insertRec (k0 :: ks) (Some p) d).
  assert (cache d1 !! k0 = Some (length (recs d))) as Hk0
    by (apply mapKeys_lookup_in; left).
  pose proof (insertRec_new (k0 :: ks) (Some p) d) as Hr. fold d1 in Hr.
  pose proof (lockAt_free _ _ _ (mkMutex 0) Hr eq_refl eq_refl) as EL.
  assert (AddAndGetRec (k0 :: ks) (Some p) flag d
          = Ok ((int_add (cnt d) 1, Some (length (recs d)), None),
                set_recs (<[length (recs d) :=
                             set_pRecLock (Some (mkMutex (state (mkMutex 0) + 1)))
                               (newRec (k0 :: ks) (Some p))]> (recs d1)) d1)) as E.
  { unfold AddAndGetRec.
    replace (if flag then firstExisting (cache d) (k0 :: ks) else None) with (@None Key).
    2:{ destruct flag; [| done].
        by rewrite (proj2 (firstExisting_None _ _) (Hfresh eq_refl)). }
    fold d1. unfold lockFirst, lockRecOf. by rewrite Hk0, EL. }
  eexists. split; [exact E |]. split; [exact E |]. cbn [recs cache set_recs].
  split; [by eapply lockAt_heldAt_after |].
  split; [intros k Hk; by apply mapKeys_lookup_in |].
  cbn [exec recs set_recs]. rewrite (RecUnlockAt_after_lockAt _ _ _ EL).
  cbn [mbind res_bind]. by destruct d.
Qed.

Lemma AddAndGetRec_returns_held_witness :
  ∃ d', AddAndGetRec [ex_u1; ex_e1] (Some 1) true (Create None None)
          = Ok ((1, Some 0%nat, None), d') ∧ heldAt 0%nat (recs d').
Proof.
  destruct (AddAndGetRec_returns_held ex_u1 [ex_e1] 1 true (Create None None))
    as (d' & E & _ & Hh & _).
  - intros _ k _. apply lookup_empty.
  - exists d'. split; [exact E | exact Hh].
Defined.

Lemma AndGet_is_add_then_GetRec_witness :
  ∃ d', AddAndGetRec [ex_u1; ex_e1] (Some 1) true (Create None None)
          = Ok ((1, Some 0%nat, None), d') ∧
        exec (OpRecUnlock 0%nat) d' = Ok (true, ex_one).
Proof.
  destruct (AndGet_is_add_then_GetRec ex_u1 [ex_e1] (Some 1) true ex_u1 ex_u1
              (Create None None)) as [E _].
  eexists. split; [rewrite E; reflexivity |]. reflexivity.
Defined.

(** ** Removing one alias *)

(** X10 ([DeleteKey]).  [DeleteKey] never fails.  It unmaps the given key and
    nothing else: every other key resolves as before, the counter and every
    record, alias lists included, are untouched, so the record stays
    reachable through its other aliases; if that key was the last one
    leading to its record, the record drops out of the store while the
    counter still counts it.  On an absent key the store is returned as it
    was. *)
Theorem DeleteKey_unmaps_one_key (key : Key) (d : DataCache) :
  ∃ d', DeleteKey key d = (None, d') ∧
        cache d' !! key = None ∧
        (∀ k, k ≠ key → cache d' !! k = cache d !! k) ∧
        recs d' = recs d ∧ cnt d' = cnt d ∧
        (cache d !! key = None → d' = d) ∧
        (∀ l, cache d !! key = Some l → keysOf l d = [key] →
           records d' = records d ∖ {[l]}).
Proof.
  eexists. split; [reflexivity |]. cbn [set_cache cache recs cnt].
  split; [apply lookup_delete_eq |].
  split; [intros k Hk; by apply lookup_delete_ne |].
  split; [done |]. split; [done |]. split.
  - intros Hk. rewrite delete_id by done. by destruct d.
  - intros l Hl Hkeys. unfold records. cbn [cache set_cache].
    apply set_eq. intros l'. rewrite elem_of_difference, !elem_of_map_img.
    rewrite not_elem_of_singleton. split.
    + intros [k Hk]. destruct (decide (k = key)) as [-> | Hne].
      { by rewrite lookup_delete_eq in Hk. }
      rewrite lookup_delete_ne in Hk by done. split; [eauto |].
      intros ->. assert (k ∈ keysOf l d) as Hin.
      { unfold keysOf. apply list_elem_of_fmap. exists (k, l). split; [done |].
        apply list_elem_of_filter. split; [done | by apply elem_of_map_to_list]. }
      rewrite Hkeys in Hin. by apply list_elem_of_singleton in Hin.
    + intros [[k Hk] Hne]. exists k. rewrite lookup_delete_ne; [done |].
      intros <-. congruence.
Qed.

(** ** The two whole-record deletes *)

(** X11 ([DeleteRecWOLock] against [DeleteRec]).  On a present key the two
    deletes have the same outcome: the same store and the same remaining
    count when they return, and they park together.  They differ on an
    absent key, which [DeleteRec] reports as an error with count [-1] and
    [DeleteRecWOLock] as [(true, 0)]; neither then changes the store. *)
Theorem DeleteRecWOLock_agrees_with_DeleteRec (key : Key) (d : DataCache) :
  (cache d !! key = None →
     DeleteRec key d = Ok ((-1, Some ErrKeyDoesntExist), d) ∧
     DeleteRecWOLock key d = Ok ((true, 0), d)) ∧
  (is_Some (cache d !! key) →
     DeleteRecWOLock key d
       = '((n, _), d') ← DeleteRec key d; Ok ((true, n), d')).
Proof.
  unfold DeleteRec, DeleteRecWOLock. split; [by intros -> |].
  intros [l ->].
  destruct (lockAt l (recs d)) as [h1| |] eqn:EL; [| done | done].
  destruct (lockAt_result _ _ _ EL) as (r & m & Hr & Hm & Hfree & -> & HU).
  cbn [mbind res_bind]. rewrite HU. cbn [mbind res_bind].
  unfold keyListAt. rewrite Hr.
  rewrite list_lookup_insert_eq by (by eapply lookup_lt_Some).
  by cbn [mbind res_bind KeyList set_pRecLock].
Qed.

Lemma DeleteRecWOLock_agrees_witness :
  ∃ d', DeleteRec ex_e1 ex_one = Ok ((0, None), d') ∧
        DeleteRecWOLock ex_e1 ex_one = Ok ((true, 0), d').
Proof.
  destruct (DeleteRecWOLock_agrees_with_DeleteRec ex_e1 ex_one) as [_ H].
  eexists. split; [reflexivity |]. rewrite H; [reflexivity | by eexists].
Defined.

(** ** Adding and deleting again *)

Lemma DeleteRec_free (key : Key) (d : DataCache) (l : loc) (r : Rec) (m : Mutex) :
  cache d !! key = Some l → recs d !! l = Some r →
  pRecLock r = Some m → isLocked m = false →
  DeleteRec key d
  = Ok ((int_sub (cnt d) 1, None),
        mkDataCache (recs d) (deleteKeys (cache d) (KeyList r))
                    (loadfn d) (reciteratefn d) (int_sub (cnt d) 1) (singletonFlag d)).
Proof.
  intros Hl Hr Hm Hfree. unfold DeleteRec. rewrite Hl.
  destruct (lockAt_unlockAt _ _ _ _ Hr Hm Hfree) as (h1 & -> & HU & _).
  cbn [mbind res_bind]. rewrite HU. cbn [mbind res_bind].
  unfold keyListAt. by rewrite Hr.
Qed.

Lemma deleteKeys_mapKeys (c : gmap Key loc) (keyList : list Key) (l : loc) :
  (∀ k, k ∈ keyList → c !! k = None) → deleteKeys (mapKeys c keyList l) keyList = c.
Proof.
  intros Hfresh. apply map_eq. intros k.
  destruct (decide (k ∈ keyList)) as [Hin | Hnin].
  - by rewrite deleteKeys_lookup_in, Hfresh.
  - by rewrite deleteKeys_lookup_notin, mapKeys_lookup_notin.
Qed.

(** X13 ([AddRec] then [DeleteRec]).  Adding a record under keys none of
    which is mapped, then deleting it through any one of those keys, gives
    back the mapping the store had before the add, and the counter it had
    before (for a counter inside the [int] range).  The arena keeps the
    record, now out of reach. *)
Theorem AddRec_then_DeleteRec_restores (keyList : list Key) (p : Z) (k : Key)
    (d : DataCache) :
  (∀ k', k' ∈ keyList → cache d !! k' = None) → k ∈ keyList →
  ∃ d1 d2, AddRec keyList (Some p) true d = ((int_add (cnt d) 1, None), d1) ∧
           DeleteRec k d1 = Ok ((int_wrap (cnt d), None), d2) ∧
           cache d2 = cache d ∧
           cnt d2 = int_wrap (cnt d) ∧
           (- 2 ^ 63 ≤ cnt d < 2 ^ 63 → cnt d2 = cnt d) ∧
           recs d2 = recs d ++ [newRec keyList (Some p)].
Proof.
  intros Hfresh Hk.
  pose proof (AddRec_success keyList p true d (λ _, Hfresh)) as E.
  set (d1 := insertRec keyList (Some p) d) in *.
  assert (cache d1 !! k = Some (length (recs d))) as Hl by by apply mapKeys_lookup_in.
  pose proof (insertRec_new keyList (Some p) d) as Hr. fold d1 in Hr.
  pose proof (DeleteRec_free k d1 _ _ (mkMutex 0) Hl Hr eq_refl eq_refl) as ED.
  assert (int_sub (cnt d1) 1 = int_wrap (cnt d)) as Hc.
  { unfold int_sub, d1. cbn [insertRec cnt]. unfold int_add.
    rewrite <- Z.add_opp_r, int_wrap_add_l. f_equal. lia. }
  rewrite Hc in ED.
  eexists d1, _. split; [exact E |]. split; [exact ED |]. cbn [cache cnt recs].
  split; [by apply deleteKeys_mapKeys |]. split; [done |].
  split; [apply int_wrap_small | done].
Qed.

Lemma AddRec_then_DeleteRec_restores_witness :
  ∃ d2, DeleteRec ex_u1 ex_one = Ok ((0, None), d2) ∧ cache d2 = ∅ ∧ cnt d2 = 0.
Proof.
  destruct (AddRec_then_DeleteRec_restores [ex_u1; ex_e1] 1 ex_u1 (Create None None))
    as (d1 & d2 & E1 & E2 & Hc & Hn & _).
  - intros k' _. apply lookup_empty.
  - left.
  - injection E1 as <-. exists d2. split; [exact E2 |]. split; [exact Hc | exact Hn].
Defined.

(** ** How far a forced add can reach *)

Lemma displace_lookup (c : gmap Key loc) (i0 : Z) (keyList : list Key) (k : Key) :
  displace c i0 keyList !! k = c !! k ∨
  (displace c i0 keyList !! k = None ∧
   ∃ i, i0 ≤ i < i0 + Z.of_nat (length keyList) ∧ k = KInt i).
Proof.
  revert c i0. induction keyList as [|k0 ks IH]; intros c i0; [by left |].
  cbn [displace length].
  destruct (IH (match c !! k0 with Some _ => delete (KInt i0) c | None => c end) (i0 + 1))
    as [E | [E (i & Hi & ->)]].
  - destruct (c !! k0); [| by left].
    destruct (decide (k = KInt i0)) as [-> | Hne].
    + right. rewrite E, lookup_delete_eq. split; [done |]. exists i0. split; [lia | done].
    + left. by rewrite E, lookup_delete_ne.
  - right. split; [done |]. exists i. split; [lia | done].
Qed.

(** X14 (reach of [ForceAddRec], [ForceAddRecWOLock]).  A key that was not
    supplied either keeps its mapping or loses it, and it can lose it only if
    it is a Go [int] key smaller than the number of supplied keys.  So when
    every such [int] key is unmapped or among the supplied keys, the forced
    add does exactly what [AddRec] does without the existence check. *)
Theorem ForceAddRec_reach (keyList : list Key) (pRec : iface) (d : DataCache) :
  (∀ k, k ∉ keyList →
     cache (ForceAddRec keyList pRec d).2 !! k = cache d !! k ∨
     (cache (ForceAddRec keyList pRec d).2 !! k = None ∧
      ∃ i, 0 ≤ i < Z.of_nat (length keyList) ∧ k = KInt i)) ∧
  ((∀ i, 0 ≤ i < Z.of_nat (length keyList) →
      KInt i ∈ keyList ∨ cache d !! KInt i = None) →
   ForceAddRec keyList pRec d = AddRec keyList pRec false d ∧
   ForceAddRecWOLock keyList pRec d = AddRecWOLock keyList pRec false d).
Proof.
  split.
  - intros k Hk. unfold ForceAddRec. destruct pRec as [p|]; [| by left].
    cbn [snd insertRec cache set_cache recs set_recs].
    rewrite mapKeys_lookup_notin by done. apply displace_lookup.
  - intros Hint.
    assert (ForceAddRec keyList pRec d = AddRec keyList pRec false d) as E; [| by split].
    unfold ForceAddRec, AddRec. destruct pRec as [p|]; [| done].
    assert (mapKeys (displace (cache d) 0 keyList) keyList (length (recs d))
            = mapKeys (cache d) keyList (length (recs d))) as Hc.
    { apply map_eq. intros k. destruct (decide (k ∈ keyList)) as [Hin | Hnin].
      - by rewrite !mapKeys_lookup_in.
      - rewrite !mapKeys_lookup_notin by done.
        destruct (displace_lookup (cache d) 0 keyList k) as [E | [E (i & Hi & ->)]];
          [done |].
        rewrite E. destruct (Hint i ltac:(lia)) as [? | ->]; done. }
    unfold insertRec. cbn [cache recs cnt loadfn reciteratefn singletonFlag set_cache].
    by rewrite Hc.
Qed.

(** On a store keyed by strings only, a forced add of one key is a plain add. *)
Lemma ForceAddRec_reach_witness :
  ForceAddRec [ex_u1] (Some 2) ex_one = AddRec [ex_u1] (Some 2) false ex_one.
Proof.
  destruct (ForceAddRec_reach [ex_u1] (Some 2) ex_one) as [_ H].
  apply H. intros i Hi. right. assert (i = 0) as -> by (simpl in Hi; lia).
  reflexivity.
Defined.

(** ** Locking a record by hand *)

(** X15 ([RecLock], with [RecUnlock]).  [RecLock] skips a nil record and a
    record without a mutex, parks on a held record, and on a free record
    returns it held with nothing else changed; a [RecUnlock] after it gives
    the record back as it was. *)
Theorem RecLock_then_RecUnlock (r : Rec) :
  RecLock None = Ok None ∧
  (pRecLock r = None → RecLock (Some r) = Ok (Some r)) ∧
  (∀ m, pRecLock r = Some m → isLocked m = true → RecLock (Some r) = Block) ∧
  (∀ m, pRecLock r = Some m → isLocked m = false →
     ∃ r1 m1 out, RecLock (Some r) = Ok (Some r1) ∧
                  pRecLock r1 = Some m1 ∧ isLocked m1 = true ∧ same_data r r1 ∧
                  RecUnlock (Some r1) = Ok (Some r, out)).
Proof.
  split; [done |]. split; [unfold RecLock; by intros -> |]. split.
  - intros m Hm Hheld. unfold RecLock. by rewrite Hm, (Mutex_Lock_held _ Hheld).
  - intros m Hm Hfree. destruct (Mutex_Lock_free m Hfree) as [HL Hheld].
    destruct (Mutex_Unlock_held _ Hheld) as [HU _].
    exists (set_pRecLock (Some (mkMutex (state m + 1))) r), (mkMutex (state m + 1)).
    eexists. split; [unfold RecLock; by rewrite Hm, HL |].
    split; [done |]. split; [done |]. split; [done |].
    unfold RecUnlock. cbn [pRecLock set_pRecLock]. rewrite Hheld, HU.
    cbn [mbind res_bind state]. do 3 f_equal.
    replace (state m + 1 - 1) with (state m) by lia.
    clear -Hm. destruct r, m; simpl in *. by rewrite Hm.
Qed.

Lemma RecLock_then_RecUnlock_witness :
  ∃ r1 out, RecLock (Some (newRec [ex_u1] (Some 1))) = Ok (Some r1) ∧
            RecUnlock (Some r1) = Ok (Some (newRec [ex_u1] (Some 1)), out).
Proof.
  destruct (RecLock_then_RecUnlock (newRec [ex_u1] (Some 1))) as (_ & _ & _ & H).
  destruct (H (mkMutex 0) eq_refl eq_refl) as (r1 & m1 & out & E1 & _ & _ & _ & E2).
  by exists r1, out.
Defined.

(** ** What a load puts in the store *)

Lemma loadRecs_recs (recList : list Payload) (h : list Rec) (c : gmap Key loc) :
  (loadRecs recList h c).1
  = h ++ ((λ p, newRec (Payload_KeyList p) (Payload_PDataRec p)) <$> recList).
Proof.
  revert h c. induction recList as [|p ps IH]; intros h c; simpl.
  - by rewrite app_nil_r.
  - by rewrite IH, <- app_assoc.
Qed.

Lemma loadRecs_lookup_notin (recList : list Payload) (h : list Rec) (c : gmap Key loc)
    (k : Key) :
  (∀ p, p ∈ recList → k ∉ Payload_KeyList p) → (loadRecs recList h c).2 !! k = c !! k.
Proof.
  revert h c. induction recList as [|p ps IH]; intros h c Hk; simpl; [done |].
  rewrite IH by (intros q Hq; apply Hk; by right).
  apply mapKeys_lookup_notin, Hk. left.
Qed.

(** The last pair that lists a key gets it. *)
Lemma loadRecs_lookup_last (recList : list Payload) (h : list Rec) (c : gmap Key loc)
    (k : Key) (i : nat) (p : Payload) :
  recList !! i = Some p → k ∈ Payload_KeyList p →
  (∀ j q, (i < j)%nat → recList !! j = Some q → k ∉ Payload_KeyList q) →
  (loadRecs recList h c).2 !! k = Some (length h + i)%nat.
Proof.
  revert h c i. induction recList as [|p0 ps IH]; intros h c i Hi Hk Hlater; [done |].
  cbn [loadRecs]. destruct i as [|i].
  - injection Hi as ->. rewrite loadRecs_lookup_notin.
    + rewrite Nat.add_0_r. by apply mapKeys_lookup_in.
    + intros q [j Hj]%list_elem_of_lookup. apply (Hlater (S j) q); [lia | done].
  - rewrite (IH _ _ i Hi Hk).
    + rewrite length_app. simpl. f_equal. lia.
    + intros j q Hij Hq. apply (Hlater (S j) q); [lia | done].
Qed.

(** X16 ([Load] that loads).  On a store whose one-shot flag is down, with a
    loader that answers [true] and a list of pairs, [Load] succeeds.  It
    appends one fresh record per pair, in order, each with the pair's key
    list and payload; a key listed by some pair resolves to the record of the
    last pair that lists it; keys no pair lists and the records already
    there are untouched.  The counter is set to the number of pairs,
    whatever it was. *)
Theorem Load_populates (b : bool) (d : DataCache) (g : LoadFunc) (recList : list Payload) :
  singletonFlag d = false → loadfn d = Some g → g () = (true, recList) →
  ∃ d', Load b d = ((true, None), d') ∧
        cnt d' = Z.of_nat (length recList) ∧
        recs d' = recs d ++
          ((λ p, newRec (Payload_KeyList p) (Payload_PDataRec p)) <$> recList) ∧
        (∀ k i p, recList !! i = Some p → k ∈ Payload_KeyList p →
           (∀ j q, (i < j)%nat → recList !! j = Some q → k ∉ Payload_KeyList q) →
           cache d' !! k = Some (length (recs d) + i)%nat) ∧
        (∀ k, (∀ p, p ∈ recList → k ∉ Payload_KeyList p) →
           cache d' !! k = cache d !! k).
Proof.
  intros Hflag Hg Hres. unfold Load. rewrite Hflag, Hg, Hres.
  eexists. split; [reflexivity |].
  assert (∀ d0, cnt (Load_deferred d0) = cnt d0 ∧ recs (Load_deferred d0) = recs d0 ∧
                cache (Load_deferred d0) = cache d0) as Hdef.
  { intros d0. unfold Load_deferred. by destruct (reciteratefn d0). }
  destruct (Hdef (loaded recList d)) as (-> & -> & ->).
  unfold loaded.
  pose proof (loadRecs_recs recList (recs d) (cache d)) as Hr.
  pose proof (loadRecs_lookup_last recList (recs d) (cache d)) as Hlast.
  pose proof (loadRecs_lookup_notin recList (recs d) (cache d)) as Hnot.
  destruct (loadRecs recList (recs d) (cache d)) as [h c]. cbn [fst snd] in *.
  cbn [cnt recs cache]. split; [done |]. split; [done |].
  split; [intros k i p; apply Hlast | done].
Qed.

(** The loader of the examples: both aliases lead to the one loaded record. *)
Lemma Load_populates_witness :
  ∃ d', Load true ex_fresh = ((true, None), d') ∧ cnt d' = 1 ∧
        cache d' !! ex_u1 = Some 0%nat ∧ cache d' !! ex_e1 = Some 0%nat.
Proof.
  destruct (Load_populates true ex_fresh ex_loader [mkPayload [ex_u1; ex_e1] (Some 7)]
              eq_refl eq_refl eq_refl) as (d' & E & Hn & _ & Hlast & _).
  exists d'. split; [exact E |]. split; [exact Hn |].
  split.
  - apply (Hlast ex_u1 0%nat (mkPayload [ex_u1; ex_e1] (Some 7)) eq_refl).
    + left.
    + intros j q Hj Hq. destruct j; [lia | discriminate Hq].
  - apply (Hlast ex_e1 0%nat (mkPayload [ex_u1; ex_e1] (Some 7)) eq_refl).
    + right. left.
    + intros j q Hj Hq. destruct j; [lia | discriminate Hq].
Defined.

(** X17 ([Load] that fails or has nothing to do).  A [Load] that reports
    failure has touched neither the mapping nor the records nor the counter:
    it fails with the already-loaded error when the flag is up, with the
    nil-loader error when a loader is required and none is registered, and
    with the load-failed error when the loader answers [false].  Without a
    loader and with none required it succeeds and loads nothing. *)
Theorem Load_failure_modes (b : bool) (d : DataCache) :
  ((Load b d).1.1 = false →
     recs (Load b d).2 = recs d ∧ cache (Load b d).2 = cache d ∧
     cnt (Load b d).2 = cnt d) ∧
  (singletonFlag d = true → (Load b d).1 = (false, Some ErrAlreadyLoaded)) ∧
  (singletonFlag d = false → loadfn d = None →
     (Load true d).1 = (false, Some ErrNilLoader) ∧
     (Load false d).1 = (true, None) ∧
     recs (Load false d).2 = recs d ∧ cache (Load false d).2 = cache d ∧
     cnt (Load false d).2 = cnt d) ∧
  (∀ g, singletonFlag d = false → loadfn d = Some g → (g ()).1 = false →
     (Load b d).1 = (false, Some ErrLoadFailed)).
Proof.
  assert (∀ d0, recs (Load_deferred d0) = recs d0 ∧ cache (Load_deferred d0) = cache d0 ∧
                cnt (Load_deferred d0) = cnt d0) as Hdef.
  { intros d0. unfold Load_deferred. by destruct (reciteratefn d0). }
  split; [| split; [| split]].
  - unfold Load. destruct (singletonFlag d); [intros _; apply Hdef |].
    destruct (loadfn d) as [g|].
    + destruct (g ()) as [[] recList]; [done | intros _; apply Hdef].
    + destruct b; [intros _; apply Hdef | done].
  - intros Hflag. unfold Load. by rewrite Hflag.
  - intros Hflag Hg. unfold Load. rewrite Hflag, Hg. cbn [fst snd].
    split; [done |]. split; [done |]. apply Hdef.
  - intros g Hflag Hg Hres. unfold Load. rewrite Hflag, Hg.
    destruct (g ()) as [[] recList]; [discriminate Hres | done].
Qed.

Lemma Load_failure_modes_witness :
  (Load true (Create None None)).1 = (false, Some ErrNilLoader).
Proof.
  destruct (Load_failure_modes true (Create None None)) as (_ & _ & H & _).
  by destruct (H eq_refl eq_refl) as [E _].
Defined.

(** ** The one-shot guard *)

Lemma set_singletonFlag_id (d : DataCache) :
  singletonFlag d = true → set_singletonFlag true d = d.
Proof. destruct d; simpl. by intros ->. Qed.

(** X18 (one-shot guard of [Iterate] and [LoadAndIterate]).  Every completed
    [Iterate] or [LoadAndIterate], successful or not, leaves the one-shot
    flag up.  On a store whose flag is up, [Load], [Iterate] and
    [LoadAndIterate] all fail with their already-executed error, invoke no
    handler and return the store as it was. *)
Theorem load_time_calls_are_one_shot :
  (∀ n b d r, Iterate n b d = Ok r → singletonFlag r.2 = true) ∧
  (∀ b1 b2 d r, LoadAndIterate b1 b2 d = Ok r → singletonFlag r.2 = true) ∧
  (∀ d, singletonFlag d = true →
     (∀ b, Load b d = ((false, Some ErrAlreadyLoaded), d)) ∧
     (∀ n b, Iterate n b d = Ok ((false, Some ErrAlreadyIterated), [], d)) ∧
     (∀ b1 b2, LoadAndIterate b1 b2 d = Ok ((false, Some ErrAlreadyLoadedAll), [], d))).
Proof.
  split; [| split].
  - intros n b d r H. unfold Iterate in H.
    destruct (singletonFlag d); [by injection H as <- |].
    destruct (reciteratefn d).
    + res_inv H. by injection H as <-.
    + destruct b; by injection H as <-.
  - intros b1 b2 d r H. unfold LoadAndIterate in H.
    destruct (singletonFlag d); [by injection H as <- |].
    destruct (loadfn d) as [g|].
    + destruct (g ()) as [[] recList]; [| by injection H as <-].
      destruct (reciteratefn (loaded recList d)).
      * res_inv H. by injection H as <-.
      * destruct b2; by injection H as <-.
    + destruct b1; by injection H as <-.
  - intros d Hflag. split; [| split].
    + intros b. unfold Load, Load_deferred. rewrite Hflag.
      destruct (reciteratefn d); [done |]. by rewrite set_singletonFlag_id.
    + intros n b. unfold Iterate. by rewrite Hflag, set_singletonFlag_id.
    + intros b1 b2. unfold LoadAndIterate. by rewrite Hflag, set_singletonFlag_id.
Qed.

(** After the load-time iteration of the examples, a load is refused. *)
Lemma load_time_calls_are_one_shot_witness :
  ∃ d', Iterate "users" true ex_loaded = Ok ((true, None), [(0%nat, Some 7); (0%nat, Some 7)], d') ∧
        Load true d' = ((false, Some ErrAlreadyLoaded), d').
Proof.
  destruct load_time_calls_are_one_shot as (H1 & _ & H3).
  eexists. split; [reflexivity |].
  apply H3. apply (H1 "users"%string true ex_loaded _ eq_refl).
Defined.

(** X19 ([LoadAndIterate] against [Load] then [Iterate]).  With the flag
    down and both a loader and an iterator registered, [LoadAndIterate] does
    what [Load] followed by [Iterate] does: the same result, the same handler
    invocations and the same final store, the iteration being skipped when
    the load fails.  Without a loader and with none required the two part:
    [LoadAndIterate] returns success at once and invokes no handler. *)
Theorem LoadAndIterate_is_Load_then_Iterate (n : string) (b1 b2 : bool) (d : DataCache) :
  singletonFlag d = false → is_Some (reciteratefn d) →
  (is_Some (loadfn d) →
     LoadAndIterate b1 b2 d
     = (let '((ok, e), d1) := Load b1 d in
        if ok then Iterate n b2 d1
        else Ok ((false, e), [], set_singletonFlag true d1))) ∧
  (loadfn d = None →
     LoadAndIterate false b2 d = Ok ((true, None), [], set_singletonFlag true d)).
Proof.
  intros Hflag [f Hf]. split.
  - intros [g Hg]. unfold LoadAndIterate, Load. rewrite Hflag, Hg.
    assert (∀ d0, reciteratefn d0 = Some f → Load_deferred d0 = d0) as Hdef.
    { intros d0 H0. unfold Load_deferred. by rewrite H0. }
    destruct (g ()) as [[] recList].
    + rewrite (Hdef (loaded recList d)) by (by rewrite reciteratefn_loaded).
      unfold Iterate. by rewrite singletonFlag_loaded, Hflag, reciteratefn_loaded, Hf.
    + by rewrite (Hdef d Hf).
  - intros Hg. unfold LoadAndIterate. by rewrite Hflag, Hg.
Qed.

Lemma LoadAndIterate_is_Load_then_Iterate_witness :
  LoadAndIterate true true ex_fresh = Iterate "users" true ex_loaded.
Proof.
  destruct (LoadAndIterate_is_Load_then_Iterate "users" true true ex_fresh eq_refl)
    as [H _]; [by eexists |].
  rewrite H; [reflexivity | by eexists].
Defined.

(** ** The general traversal *)

Lemma auxVisit_free (entries : list (Key * loc)) (h : list Rec) :
  (∀ k l, (k, l) ∈ entries → freeAt l h) →
  ∃ cs, auxVisit entries h = Ok (cs, h) ∧ visit entries h = Ok cs.
Proof.
  induction entries as [|[k l] rest IH]; intros Hall; [by eexists |].
  destruct (Hall k l ltac:(left)) as (r & m & Hr & Hm & Hfree).
  destruct IH as (cs & Ha & Hv); [intros k' l' Hin; apply (Hall k' l'); by right |].
  destruct (RecLockAt_RecUnlockAt h l r m Hr Hm Hfree) as (h1 & HL & HU & Hp).
  exists ((l, PDataRec r) :: cs). split.
  - cbn [auxVisit]. rewrite HL. cbn [mbind res_bind].
    destruct (h1 !! l) as [r1|]; [| done]. injection Hp as ->.
    rewrite HU. cbn [mbind res_bind]. by rewrite Ha.
  - cbn [visit]. by rewrite Hr, Hv.
Qed.

(** X20 ([AuxIterate]).  Without a handler [AuxIterate] fails with the
    nil-handler error.  With one, on a store whose records are all free, it
    succeeds and, like the load-time iteration, invokes the handler once per
    key of the mapping, each time for the record that key resolves to.  It
    is not one-shot: every record lock it took is released again and the
    store, flag included, is returned exactly as it was. *)
Theorem AuxIterate_visits_every_key (n : string) (f : Rec → bool) (d : DataCache) :
  AuxIterate n None d = Ok ((false, Some ErrNilHandler), [], d) ∧
  (store_ok d → unheld d →
     ∃ cs, AuxIterate n (Some f) d = Ok ((true, None), cs, d) ∧
           length cs = size (cache d) ∧
           (∀ l, callsOn l cs = length (keysOf l d)) ∧
           (∀ l a, (l, a) ∈ cs → ∃ r, recs d !! l = Some r ∧ a = PDataRec r)).
Proof.
  split; [done |]. intros Hd Hfree.
  destruct (auxVisit_free (map_to_list (cache d)) (recs d)) as (cs & Ha & Hv).
  { intros k l Hin%elem_of_map_to_list.
    destruct (Hd k l Hin) as (r & Hr & _ & [m Hm]).
    exists r, m. split; [done |]. split; [done |]. by apply (Hfree k l r m). }
  destruct (visit_calls _ _ _ Hv) as (Hlen & Hcalls & Hargs).
  exists cs. unfold AuxIterate. rewrite Ha. cbn [mbind res_bind].
  split; [by destruct d |].
  split; [by rewrite Hlen, length_map_to_list |].
  split; [| done]. intros l. unfold keysOf. by rewrite length_fmap.
Qed.

Lemma AuxIterate_visits_every_key_witness :
  ∃ cs, AuxIterate "users" (Some (λ _, true)) ex_one = Ok ((true, None), cs, ex_one) ∧
        length cs = 2%nat.
Proof.
  destruct (AuxIterate_visits_every_key "users" (λ _, true) ex_one) as [_ H].
  destruct H as (cs & E & Hlen & _).
  - apply store_okb_sound. vm_compute. reflexivity.
  - apply unheldb_sound. vm_compute. reflexivity.
  - exists cs. split; [exact E |]. rewrite Hlen. vm_compute. reflexivity.
Defined.

(** ** Calls that cannot panic *)







(** ** Records are never moved, emptied or rewritten *)






















(** ** An alias shares the fate of its record *)

(** X23 ([ReAddRec] then [DeleteRec]).  In a well-linked store, after a key
    has been aliased onto a free record, deleting the record through the new
    alias unmaps the new alias, the key it was aliased from and every other
    key that led to the record, and lowers the counter by one: the alias and
    the original are two names of one record, not two records. *)
Theorem ReAddRec_then_DeleteRec (originalKey newKey : Key) (d : DataCache)
    (l : loc) (r : Rec) (m : Mutex) :
  store_ok d → cache d !! originalKey = Some l → recs d !! l = Some r →
  pRecLock r = Some m → isLocked m = false →
  ∃ d1 d2, ReAddRec originalKey newKey d = ((cnt d, None), d1) ∧
           DeleteRec newKey d1 = Ok ((int_sub (cnt d) 1, None), d2) ∧
           cache d2 !! newKey = None ∧
           (∀ k, cache d !! k = Some l → cache d2 !! k = None) ∧
           (∀ k, k ≠ newKey → k ∉ KeyList r → cache d2 !! k = cache d !! k) ∧
           cnt d2 = int_sub (cnt d) 1.
Proof.
  intros Hd Hl Hr Hm Hfree.
  assert (ReAddRec originalKey newKey d = ((cnt d, None), alias l newKey d)) as E1
    by (unfold ReAddRec; by rewrite Hl).
  set (d1 := alias l newKey d) in *.
  set (r1 := set_KeyList (KeyList r ++ [newKey]) r).
  assert (recs d1 !! l = Some r1) as Hr1.
  { unfold d1, alias. cbn [recs set_cache set_recs]. by rewrite list_lookup_alter_eq, Hr. }
  assert (cache d1 !! newKey = Some l) as Hl1 by apply lookup_insert_eq.
  pose proof (DeleteRec_free newKey d1 l r1 m Hl1 Hr1 Hm Hfree) as E2.
  eexists d1, _. split; [exact E1 |]. split; [exact E2 |].
  cbn [cache cnt KeyList r1 set_KeyList].
  split; [apply deleteKeys_lookup_in, elem_of_app; right; left |].
  split; [| split; [| done]].
  - intros k Hk. apply deleteKeys_lookup_in.
    destruct (Hd k l Hk) as (r' & Hr' & Hin & _).
    assert (r' = r) as -> by congruence. apply elem_of_app. by left.
  - intros k Hne Hnin. rewrite deleteKeys_lookup_notin.
    2:{ apply not_elem_of_app. split; [done |].
        by intros ?%list_elem_of_singleton. }
    unfold d1, alias. cbn [cache set_cache]. by apply lookup_insert_ne.
Qed.

(** [ReAdd("u1","u2")], then [DeleteRec("u2")]: [u1] and [e1] go too. *)
Lemma ReAddRec_then_DeleteRec_witness :
  ∃ d1 d2, ReAddRec ex_u1 ex_u2 ex_one = ((1, None), d1) ∧
           DeleteRec ex_u2 d1 = Ok ((0, None), d2) ∧
           cache d2 !! ex_u1 = None ∧ cache d2 !! ex_e1 = None.
Proof.
  destruct (ReAddRec_then_DeleteRec ex_u1 ex_u2 ex_one 0%nat
              (newRec [ex_u1; ex_e1] (Some 1)) (mkMutex 0))
    as (d1 & d2 & E1 & E2 & _ & Hall & _); try reflexivity.
  - apply store_okb_sound. vm_compute. reflexivity.
  - exists d1, d2. split; [exact E1 |]. split; [exact E2 |].
    split; apply Hall; reflexivity.
Defined.

(** ** Calls that report failure *)

(** X24 (what a failed call leaves behind).  A call that reports failure has
    changed neither the mapping, nor the records, nor the counter, with one
    exception: a [LoadAndIterate] that requires an iterator, finds none
    registered and fails for it has by then run the loader, so the store
    holds the loaded records and the counter their number. *)
Theorem failed_call_changes_nothing (op : Op) (d d' : DataCache) :
  exec op d = Ok (false, d') →
  (cache d' = cache d ∧ recs d' = recs d ∧ cnt d' = cnt d) ∨
  (∃ b1 g recList,
     op = OpLoadAndIterate b1 true ∧ reciteratefn d = None ∧
     loadfn d = Some g ∧ g () = (true, recList) ∧
     d' = set_singletonFlag true (loaded recList d)).
Proof.
  intros H. destruct op; cbn [exec] in H.
  - left. destruct (AddRec _ _ _ _) as [[n e] d1] eqn:E. injection H as He <-.
    apply effect_AddRec in E. rewrite He in E. by subst.
  - left. destruct (ForceAddRec _ _ _) as [[n e] d1] eqn:E. injection H as He <-.
    apply effect_ForceAddRec in E. rewrite He in E. by subst.
  - left. res_inv H. destruct a as [[[n p] e] d1]. injection H as He <-.
    apply effect_AddAndGetRec in E. rewrite He in E. by subst.
  - left. res_inv H. destruct a as [[[n p] e] d1]. injection H as He <-.
    apply effect_ForceAddAndGetRec in E. rewrite He in E. by subst.
  - left. unfold ReAddRec in H. destruct (cache d !! originalKey); [done |].
    by injection H as <-.
  - left. unfold ReAddAndGetRec in H. destruct (cache d !! originalKey).
    + destruct (lockRecOf _ _) as [[l1 d1]| |]; done.
    + by injection H as <-.
  - done.
  - left. res_inv H. destruct a as [[n e] d1]. injection H as He <-.
    apply effect_DeleteRec in E. rewrite He in E. by subst.
  - unfold DeleteRecWOLock in H. destruct (cache d !! key); [| done].
    destruct (lockAt _ _); [| done | done]. cbn [mbind res_bind] in H.
    destruct (keyListAt _ _); [| done | done]. cbn [mbind res_bind] in H.
    destruct (unlockAt _ _); done.
  - unfold DeleteCache in H. destruct (clearEntries _ _); done.
  - left. unfold UpdateRecState in H. destruct (cache d !! key); [| by injection H as <-].
    destruct (lockAt _ _); [| done | done]. cbn [mbind res_bind] in H.
    destruct (unlockAt _ _); done.
  - left. unfold GetRec in H. destruct (cache d !! key); [| by injection H as <-].
    destruct (lockAt _ _); done.
  - left. unfold GetDataRec in H. destruct (cache d !! key) as [l|]; [| by injection H as <-].
    destruct (lockAt _ _) as [h1| |]; [| done | done]. cbn [mbind res_bind] in H.
    destruct (h1 !! l); [| done]. destruct (unlockAt _ _); done.
  - left. by injection H as _ <-.
  - done.
  - done.
  - left. unfold Load in H.
    assert (∀ d0, cache (Load_deferred d0) = cache d0 ∧ recs (Load_deferred d0) = recs d0 ∧
                  cnt (Load_deferred d0) = cnt d0) as Hdef.
    { intros d0. unfold Load_deferred. by destruct (reciteratefn d0). }
    destruct (singletonFlag d); [injection H as <-; apply Hdef |].
    destruct (loadfn d) as [g|].
    + destruct (g ()) as [[] recList]; [done | injection H as <-; apply Hdef].
    + destruct isLoaderProvided; [injection H as <-; apply Hdef | done].
  - left. unfold Iterate in H. destruct (singletonFlag d); [by injection H as <- |].
    destruct (reciteratefn d).
    + destruct (visit _ _); done.
    + destruct isIteratorProvided; [by injection H as <- | done].
  - unfold LoadAndIterate in H. destruct (singletonFlag d); [left; by injection H as <- |].
    destruct (loadfn d) as [g|].
    + destruct (g ()) as [[] recList] eqn:Eg; [| left; by injection H as <-].
      destruct (reciteratefn (loaded recList d)) eqn:Ef.
      * destruct (visit _ _); done.
      * destruct isIteratorProvided; [| done]. injection H as <-. right.
        exists isLoaderProvided, g, recList. rewrite reciteratefn_loaded in Ef.
        by repeat split.
    + left. destruct isLoaderProvided; [by injection H as <- | done].
  - left. unfold AuxIterate in H. destruct recHandler; [| by injection H as <-].
    destruct (auxVisit _ _) as [[cs h]| |]; done.
  - destruct (RecLockAt _ _); done.
  - destruct (RecUnlockAt _ _); done.
Qed.

(** The refused second add of the scenario leaves the store as it was. *)
Lemma failed_call_changes_nothing_witness :
  ∃ d', exec (OpAddRec [ex_u1] (Some 2) true) ex_one = Ok (false, d') ∧
        cache d' = cache ex_one ∧ cnt d' = 1.
Proof.
  eexists. split; [reflexivity |].
  destruct (failed_call_changes_nothing (OpAddRec [ex_u1] (Some 2) true) ex_one _ eq_refl)
    as [(Hc & _ & Hn) | (b1 & g & rl & Hop & _)]; [by split | discriminate Hop].
Defined.

(** Deleting [u1] leaves [e1] on the record and the counter at one. *)
Lemma DeleteKey_unmaps_one_key_witness :
  ∃ d', DeleteKey ex_u1 ex_one = (None, d') ∧ cache d' !! ex_u1 = None ∧
        cache d' !! ex_e1 = Some 0%nat ∧ cnt d' = 1.
Proof.
  destruct (DeleteKey_unmaps_one_key ex_u1 ex_one) as (d' & E & Hk & Hother & _ & Hn & _).
  exists d'. split; [exact E |]. split; [exact Hk |].
  split; [| exact Hn]. rewrite Hother; [reflexivity | discriminate].
Defined.
